(** * The game loop of [src/app/GameCanvas.tsx]

    A shallow embedding of the simulation core of the canvas component:
    the per-frame [step] callback (physics, obstacle scroll, scoring,
    collision, recycling, ground check), [spawnPipePair], [startGame],
    [flap], the start button, the spawn interval callback and the
    asset-readiness counter.

    Modelling conventions.
    - A JavaScript [number] is an exact rational ([Q]); sums, differences
      and comparisons are the exact ones, where the code has their
      binary64 roundings.  The positions and sizes of the pipes and the
      score are whole numbers or halves, on which the two agree; of the
      bird's [y] and velocity the theorems state only what holds of the
      rounded sums as well (the equations that define them, and what the
      comparisons on them decide).  The module [IEEE] below evaluates the
      arithmetic of [spawnPipePair] and of the velocity in binary64, where
      rounding decides a claim.
    - [Math.random()] is a parameter [r] of the functions that draw from
      it, with [0 <= r < 1].
    - React refs and React state are the fields of one [State] record.
      A handler reads [running], [showMenu] and [loaded] as the render
      that registered it had them.  In [handle] and [reachable] a write
      to them is seen by the next event, as if the render followed at
      once; a handler that runs before that render reads an older value,
      so what is claimed of a handler by itself, [flap] above all, is
      stated for every state and not only for the reachable ones.
    - Canvas drawing and audio playback write no game state and are left
      out. *)

From Stdlib Require Import ZArith QArith Qround Lqa List Bool Arith Lia
  PrimFloat.
Import ListNotations.
Open Scope Q_scope.

(** ** Numbers *)

(** [a < b] and [a > b] on JS numbers, as booleans. *)
Definition Qltb (a b : Q) : bool :=
  match a ?= b with Lt => true | _ => false end.

Definition Qgtb (a b : Q) : bool := Qltb b a.

(** ** Constants (lines 6-15, 33, 46, 82) *)

Definition BOARD_W : Q := 360.
Definition BOARD_H : Q := 640.
Definition BIRD_W : Q := 34.
Definition BIRD_H : Q := 24.
Definition BIRD_X : Q := BOARD_W / 8.
Definition BIRD_Y : Q := BOARD_H / 2.

Definition PIPE_W : Q := 64.
Definition PIPE_H : Q := 512.
Definition PIPE_X : Q := BOARD_W.

Definition gravity : Q := 0.4.
Definition FRAME_TICK_RATE : nat := 6.
Definition EXPECTED_FRAMES : nat := 4.

(** ** Data *)

(** The object held by [birdRef]. *)
Module Bird.
Record t := mk { x : Q; y : Q; width : Q; height : Q }.
Definition set_y (b : t) (v : Q) : t := mk (x b) v (width b) (height b).
End Bird.

(** Which of the two preloaded images a pipe draws ([img] field). *)
Inductive Img := TopPipeImg | BottomPipeImg.

(** The [Pipe] type of the source. *)
Module Pipe.
Record t := mk { img : Img; x : Q; y : Q; width : Q; height : Q; passed : bool }.
Definition set_x (p : t) (v : Q) : t :=
  mk (img p) v (y p) (width p) (height p) (passed p).
Definition set_passed (p : t) (v : bool) : t :=
  mk (img p) (x p) (y p) (width p) (height p) v.
End Pipe.

(** The refs and React state of the component.  [placePipesInterval] is
    [true] when the ref holds the id of an installed interval and [false]
    when it is [null]; [checks] is the counter of [checkLoaded]. *)
Record State := mkState {
  bird : Bird.t;
  velocityY : Q;
  pipes : list Pipe.t;
  score : Q;
  gameOver : bool;
  placePipesInterval : bool;
  loaded : bool;
  running : bool;
  showMenu : bool;
  frameIndex : nat;
  frameTick : nat;
  checks : nat
}.

Definition set_bird (v : Bird.t) (s : State) : State :=
  mkState v (velocityY s) (pipes s) (score s) (gameOver s) (placePipesInterval s)
    (loaded s) (running s) (showMenu s) (frameIndex s) (frameTick s) (checks s).
Definition set_velocityY (v : Q) (s : State) : State :=
  mkState (bird s) v (pipes s) (score s) (gameOver s) (placePipesInterval s)
    (loaded s) (running s) (showMenu s) (frameIndex s) (frameTick s) (checks s).
Definition set_pipes (v : list Pipe.t) (s : State) : State :=
  mkState (bird s) (velocityY s) v (score s) (gameOver s) (placePipesInterval s)
    (loaded s) (running s) (showMenu s) (frameIndex s) (frameTick s) (checks s).
Definition set_score (v : Q) (s : State) : State :=
  mkState (bird s) (velocityY s) (pipes s) v (gameOver s) (placePipesInterval s)
    (loaded s) (running s) (showMenu s) (frameIndex s) (frameTick s) (checks s).
Definition set_gameOver (v : bool) (s : State) : State :=
  mkState (bird s) (velocityY s) (pipes s) (score s) v (placePipesInterval s)
    (loaded s) (running s) (showMenu s) (frameIndex s) (frameTick s) (checks s).
Definition set_placePipesInterval (v : bool) (s : State) : State :=
  mkState (bird s) (velocityY s) (pipes s) (score s) (gameOver s) v
    (loaded s) (running s) (showMenu s) (frameIndex s) (frameTick s) (checks s).
Definition set_loaded (v : bool) (s : State) : State :=
  mkState (bird s) (velocityY s) (pipes s) (score s) (gameOver s) (placePipesInterval s)
    v (running s) (showMenu s) (frameIndex s) (frameTick s) (checks s).
Definition set_running (v : bool) (s : State) : State :=
  mkState (bird s) (velocityY s) (pipes s) (score s) (gameOver s) (placePipesInterval s)
    (loaded s) v (showMenu s) (frameIndex s) (frameTick s) (checks s).
Definition set_showMenu (v : bool) (s : State) : State :=
  mkState (bird s) (velocityY s) (pipes s) (score s) (gameOver s) (placePipesInterval s)
    (loaded s) (running s) v (frameIndex s) (frameTick s) (checks s).
Definition set_frameIndex (v : nat) (s : State) : State :=
  mkState (bird s) (velocityY s) (pipes s) (score s) (gameOver s) (placePipesInterval s)
    (loaded s) (running s) (showMenu s) v (frameTick s) (checks s).
Definition set_frameTick (v : nat) (s : State) : State :=
  mkState (bird s) (velocityY s) (pipes s) (score s) (gameOver s) (placePipesInterval s)
    (loaded s) (running s) (showMenu s) (frameIndex s) v (checks s).
Definition set_checks (v : nat) (s : State) : State :=
  mkState (bird s) (velocityY s) (pipes s) (score s) (gameOver s) (placePipesInterval s)
    (loaded s) (running s) (showMenu s) (frameIndex s) (frameTick s) v.

(** The state after the first render: the initial values of the refs and
    of [useState] (lines 31-56). *)
Definition initialState : State :=
  mkState (Bird.mk BIRD_X BIRD_Y BIRD_W BIRD_H) 0 [] 0 false false
    false false true 0%nat 0%nat 0%nat.

(** ** The frame callback (lines 159-245) *)

(** [detectCollision] (lines 159-166). *)
Definition detectCollision (a : Bird.t) (b : Pipe.t) : bool :=
  Qltb (Bird.x a) (Pipe.x b + Pipe.width b) &&
  Qgtb (Bird.x a + Bird.width a) (Pipe.x b) &&
  Qltb (Bird.y a) (Pipe.y b + Pipe.height b) &&
  Qgtb (Bird.y a + Bird.height a) (Pipe.y b).

(** The sprite animation counter (lines 178-182 with [rate] =
    [FRAME_TICK_RATE], lines 137-141 with twice that). *)
Definition animate (rate : nat) (s : State) : State :=
  let s := set_frameTick (S (frameTick s)) s in
  if (rate <=? frameTick s)%nat
  then set_frameIndex ((frameIndex s + 1) mod Nat.max 1 EXPECTED_FRAMES)%nat
         (set_frameTick 0%nat s)
  else s.

(** Lines 185-186.  The two sums are exact here and rounded to binary64
    in the code. *)
Definition physics (s : State) : State :=
  let s := set_velocityY (velocityY s + gravity) s in
  set_bird (Bird.set_y (bird s) (Bird.y (bird s) + velocityY s)) s.

(** [pipe.x += -2] (line 195). *)
Definition movePipe (p : Pipe.t) : Pipe.t := Pipe.set_x p (Pipe.x p + -2).

(** The test of line 198, on the pipe already moved. *)
Definition scores (b : Bird.t) (p : Pipe.t) : bool :=
  negb (Pipe.passed p) && Qgtb (Bird.x b) (Pipe.x p + Pipe.width p).

(** One iteration of the loop of lines 193-208 on [pipesRef.current[i]]:
    the pipe it leaves in the array, the score and the game-over flag. *)
Definition pipeBody (b : Bird.t) (p : Pipe.t) (sc : Q) (go : bool)
  : Pipe.t * Q * bool :=
  let p := movePipe p in
  let '(p, sc) :=
    if scores b p then (Pipe.set_passed p true, sc + 0.5) else (p, sc) in
  let go := if detectCollision b p then true else go in
  (p, sc, go).

(** The whole loop, from index 0 upwards. *)
Fixpoint pipeLoop (b : Bird.t) (ps : list Pipe.t) (sc : Q) (go : bool)
  : list Pipe.t * Q * bool :=
  match ps with
  | [] => ([], sc, go)
  | p :: rest =>
      let '(p', sc, go) := pipeBody b p sc go in
      let '(rest', sc, go) := pipeLoop b rest sc go in
      (p' :: rest', sc, go)
  end.

(** The [while ... shift()] of line 226. *)
Fixpoint recycle (ps : list Pipe.t) : list Pipe.t :=
  match ps with
  | [] => []
  | p :: rest => if Qltb (Pipe.x p) (- PIPE_W) then recycle rest else ps
  end.

(** [step] (lines 168-245).  The closure's [running] is the state of the
    render that installed the loop; the effect installs the loop only when
    it is [true] and tears it down when it changes, so a frame in a state
    with [running = false] changes nothing. *)
Definition step (s : State) : State :=
  if negb (running s) then s else
  let s := animate FRAME_TICK_RATE s in
  let s := physics s in
  let '(ps, sc, go) := pipeLoop (bird s) (pipes s) (score s) (gameOver s) in
  let s := set_gameOver go (set_score sc (set_pipes ps s)) in
  let s := set_pipes (recycle (pipes s)) s in
  let s :=
    if Qgtb (Bird.y (bird s)) (BOARD_H - BIRD_H) then set_gameOver true s else s in
  if negb (gameOver s) then s
  else set_running false (set_showMenu true (set_placePipesInterval false s)).

(** The idle animation loop of the first effect (lines 124-144); it is
    re-armed on every frame for the lifetime of the component. *)
Definition idleLoop (s : State) : State := animate (FRAME_TICK_RATE * 2) s.

(** ** Spawning and control (lines 252-329) *)

Definition openingSpace : Q := BOARD_H / 4.

(** [randomPipeY] for the draw [r] of [Math.random()] (line 253). *)
Definition randomPipeY (r : Q) : Q := - PIPE_H / 4 - r * (PIPE_H / 2).

Definition topPipe (r : Q) : Pipe.t :=
  Pipe.mk TopPipeImg PIPE_X (randomPipeY r) PIPE_W PIPE_H false.

Definition bottomPipe (r : Q) : Pipe.t :=
  Pipe.mk BottomPipeImg PIPE_X (randomPipeY r + PIPE_H + openingSpace)
    PIPE_W PIPE_H false.

(** [spawnPipePair] (lines 252-275): two [push]es. *)
Definition spawnPipePair (r : Q) (s : State) : State :=
  let s := set_pipes (pipes s ++ [topPipe r]) s in
  set_pipes (pipes s ++ [bottomPipe r]) s.

(** The interval callback of lines 307-309. *)
Definition placePipes (r : Q) (s : State) : State :=
  if negb (gameOver s) then spawnPipePair r s else s.

(** [startGame] (lines 277-314). *)
Definition startGame (r : Q) (s : State) : State :=
  let s := set_bird (Bird.mk BIRD_X BIRD_Y BIRD_W BIRD_H) s in
  let s := set_velocityY 0 s in
  let s := set_pipes [] s in
  let s := set_score 0 s in
  let s := set_gameOver false s in
  let s := spawnPipePair r s in
  let s := set_placePipesInterval true s in
  set_showMenu false (set_running true s).

(** [flap] (lines 316-329).  [running s], [showMenu s] and [loaded s] stand
    for what the closure reads: the values of the render that registered
    the handler. *)
Definition flap (r : Q) (s : State) : State :=
  if negb (running s) then
    if showMenu s && loaded s then startGame r s else s
  else if gameOver s then startGame r s
  else set_velocityY (-6) s.

(** The [onClick] of the start button (lines 381-384); the button is
    part of the overlay, which is rendered only while [showMenu]. *)
Definition startButton (r : Q) (s : State) : State :=
  if showMenu s then
    if negb (loaded s) then s else startGame r s
  else s.

(** [checkLoaded] (lines 111-117), run by the image load callbacks. *)
Definition checkLoaded (s : State) : State :=
  let s := set_checks (S (checks s)) s in
  if negb (loaded s) && (3 <? checks s)%nat then set_loaded true s else s.

(** ** The event loop *)

(** What the host can run between two renders.  [SpawnTimer] fires only
    while an interval is installed. *)
Inductive Event :=
| Tick
| IdleFrame
| Flap (r : Q)
| StartButton (r : Q)
| SpawnTimer (r : Q)
| AssetCallback.

Definition handle (e : Event) (s : State) : State :=
  match e with
  | Tick => step s
  | IdleFrame => idleLoop s
  | Flap r => flap r s
  | StartButton r => startButton r s
  | SpawnTimer r => if placePipesInterval s then placePipes r s else s
  | AssetCallback => checkLoaded s
  end.

(** The draws of [Math.random()] lie in [0, 1). *)
Definition validEvent (e : Event) : Prop :=
  match e with
  | Flap r | StartButton r | SpawnTimer r => 0 <= r /\ r < 1
  | _ => True
  end.

Fixpoint run (es : list Event) (s : State) : State :=
  match es with
  | [] => s
  | e :: es => run es (handle e s)
  end.

Inductive reachable : State -> Prop :=
| reachable_init : reachable initialState
| reachable_handle e s :
    reachable s -> validEvent e -> reachable (handle e s).

(** ** Derived views of the loop body

    What one frame does to a single pipe, and what it adds to the score;
    [pipeLoop] is then a [map], a sum and an [existsb]. *)

(** The pipe that iteration [i] leaves in the array. *)
Definition tickPipe (b : Bird.t) (p : Pipe.t) : Pipe.t :=
  if scores b (movePipe p) then Pipe.set_passed (movePipe p) true else movePipe p.

(** What iteration [i] adds to the score. *)
Definition gain (b : Bird.t) (p : Pipe.t) : Q :=
  if scores b (movePipe p) then 0.5 else 0.

(** Whether iteration [i] raises the game-over flag. *)
Definition hits (b : Bird.t) (p : Pipe.t) : bool :=
  detectCollision b (tickPipe b p).

Fixpoint totalGain (b : Bird.t) (ps : list Pipe.t) : Q :=
  match ps with
  | [] => 0
  | p :: rest => gain b p + totalGain b rest
  end.

(** A pipe followed over [n] consecutive frames, with the score it has
    contributed so far. *)
Fixpoint followPipe (b : Bird.t) (n : nat) (p : Pipe.t) : Pipe.t * Q :=
  match n with
  | O => (p, 0)
  | S n => let '(q, g) := followPipe b n p in (tickPipe b q, g + gain b q)
  end.

(** The bird that the pipe loop of a frame sees. *)
Definition birdAt (s : State) : Bird.t := bird (physics (animate FRAME_TICK_RATE s)).

(** The game-over flag at the end of a frame. *)
Definition overAfter (s : State) : bool :=
  gameOver s || existsb (hits (birdAt s)) (pipes s)
  || Qgtb (Bird.y (birdAt s)) (BOARD_H - BIRD_H).

(** ** Invariants of the reachable states *)

(** The pipes of the sequence come in adjacent pairs, as pushed by
    [spawnPipePair]. *)
Inductive Paired : list Pipe.t -> Prop :=
| Paired_nil : Paired []
| Paired_cons u l rest :
    Pipe.x u = Pipe.x l ->
    Pipe.y l = Pipe.y u + PIPE_H + openingSpace ->
    Pipe.width u = Pipe.width l ->
    Pipe.height u = PIPE_H ->
    Pipe.passed u = Pipe.passed l ->
    Paired rest ->
    Paired (u :: l :: rest).

(** What holds of every single pipe. *)
Record pipeOk (b : Bird.t) (p : Pipe.t) : Prop := {
  ok_width : Pipe.width p = PIPE_W;
  ok_height : Pipe.height p = PIPE_H;
  ok_x : Pipe.x p <= PIPE_X;
  ok_y : - PIPE_H / 4 - PIPE_H / 2 < Pipe.y p;
  ok_passed : Pipe.passed p = true -> Pipe.x p + Pipe.width p < Bird.x b
}.

(** The sequence is in spawn order, which is ascending [x]. *)
Fixpoint ascending (ps : list Pipe.t) : Prop :=
  match ps with
  | [] => True
  | p :: rest => Forall (fun q => Pipe.x p <= Pipe.x q) rest /\ ascending rest
  end.

Record Inv (s : State) : Prop := {
  inv_bird_x : Bird.x (bird s) = BIRD_X;
  inv_bird_w : Bird.width (bird s) = BIRD_W;
  inv_bird_h : Bird.height (bird s) = BIRD_H;
  inv_pipes : Forall (pipeOk (bird s)) (pipes s);
  inv_paired : Paired (pipes s);
  inv_asc : ascending (pipes s);
  inv_menu : showMenu s = negb (running s);
  inv_timer : placePipesInterval s = running s;
  inv_over : gameOver s = true -> running s = false;
  inv_loaded : running s = true \/ gameOver s = true -> loaded s = true;
  inv_score : 0 <= score s
}.

(** ** The arithmetic of [spawnPipePair] in binary64

    The expressions of lines 253, 254 and 269 with the engine's numbers:
    IEEE-754 doubles, every operation rounded to nearest, ties to even. *)
Module IEEE.
Definition BOARD_H : float := 640%float.
Definition PIPE_H : float := 512%float.
Definition openingSpace : float := (BOARD_H / 4)%float.
Definition randomPipeY (r : float) : float :=
  (- PIPE_H / 4 - r * (PIPE_H / 2))%float.
(** [gravity] is the double nearest to 0.4, and line 185 the rounded sum. *)
Definition gravity : float := 0x1.999999999999ap-2%float.
Definition nextVelocity (v : float) : float := (v + gravity)%float.
End IEEE.

(** ** Session states and scenarios *)

(** The inputs that (re)start a session. *)
Definition isRestart (e : Event) : bool :=
  match e with
  | Flap _ | StartButton _ => true
  | _ => false
  end.

(** The state in which a frame has ended the session. *)
Definition halted (s : State) : Prop :=
  gameOver s = true /\ running s = false /\ placePipesInterval s = false.

(** All four sprite frames have reported: the assets are ready. *)
Definition assetsReady : State :=
  run [AssetCallback; AssetCallback; AssetCallback; AssetCallback] initialState.

(** A session started by a tap, the first pair drawn with [r = 0]. *)
Definition started : State := handle (Flap 0) assetsReady.

(** [n] frames without input. *)
Definition fall (n : nat) : list Event := repeat Tick n.

(** [n] frames with a tap before each. *)
Definition climb (n : nat) : list Event := concat (repeat [Flap 0; Tick] n).

(** Free fall from the start: frame 38 is the one that reaches the ground. *)
Definition beforeGround : State := run (fall 37) started.
Definition grounded : State := step beforeGround.

(** What a handler registered by the render before that frame reads
    after it: the game-over flag set, [running] and [showMenu] still as
    that render had them. *)
Definition groundedUnrendered : State :=
  set_showMenu false (set_running true grounded).

(** A session whose first pair sits as high as it can ([r = 0.99]); the
    bird falls for 10 frames and then climbs, and meets the upper pipe in
    frame 141. *)
Definition beforeHit : State :=
  run (fall 10 ++ climb 130 ++ [Flap 0]) (handle (Flap 0.99) assetsReady).

(** Climbing over the first pair: frame 190 scores it, frame 213 recycles
    it. *)
Definition beforeScore : State := run (climb 189 ++ [Flap 0]) started.
Definition beforeRecycle : State := run (climb 212 ++ [Flap 0]) started.

(** ** Notions for the further properties *)

(** How many of the events are asset callbacks. *)
Definition isAssetCallback (e : Event) : bool :=
  match e with AssetCallback => true | _ => false end.

Definition assetCallbacks (es : list Event) : nat :=
  length (filter isAssetCallback es).

(** The number drawn by line 223: [Math.floor(scoreRef.current)]. *)
Definition displayedScore (s : State) : Z := Qfloor (score s).

(** Two states that differ at most in the sprite animation counters. *)
Definition sameGame (s t : State) : Prop :=
  bird s = bird t /\ velocityY s = velocityY t /\ pipes s = pipes t /\
  score s = score t /\ gameOver s = gameOver t /\
  placePipesInterval s = placePipesInterval t /\ loaded s = loaded t /\
  running s = running t /\ showMenu s = showMenu t /\ checks s = checks t.

(** The bird and a pipe overlap horizontally: the first two comparisons
    of [detectCollision]. *)
Definition overlapsX (a : Bird.t) (p : Pipe.t) : Prop :=
  Bird.x a < Pipe.x p + Pipe.width p /\ Bird.x a + Bird.width a > Pipe.x p.

(** The bird is, vertically, within the opening between the upper pipe
    [u] and the lower pipe [l] of a pair (touching an edge included). *)
Definition inOpening (a : Bird.t) (u l : Pipe.t) : Prop :=
  Pipe.y u + Pipe.height u <= Bird.y a /\
  Bird.y a + Bird.height a <= Pipe.y l.

(** ** Basic facts *)

Lemma Qltb_true a b : Qltb a b = true <-> a < b.
Proof.
  unfold Qltb. rewrite Qlt_alt. destruct (a ?= b); split; congruence.
Qed.

Lemma Qltb_false a b : Qltb a b = false <-> b <= a.
Proof.
  rewrite <- not_true_iff_false, Qltb_true. split.
  - apply Qnot_lt_le.
  - apply Qle_not_lt.
Qed.

Lemma Qgtb_true a b : Qgtb a b = true <-> b < a.
Proof. apply Qltb_true. Qed.

Lemma Qgtb_false a b : Qgtb a b = false <-> a <= b.
Proof. apply Qltb_false. Qed.

Ltac fields :=
  cbn [bird velocityY pipes score gameOver placePipesInterval loaded running
       showMenu frameIndex frameTick checks
       set_bird set_velocityY set_pipes set_score set_gameOver
       set_placePipesInterval set_loaded set_running set_showMenu
       set_frameIndex set_frameTick set_checks
       Bird.x Bird.y Bird.width Bird.height Bird.set_y
       Pipe.img Pipe.x Pipe.y Pipe.width Pipe.height Pipe.passed
       Pipe.set_x Pipe.set_passed fst snd] in *.

Lemma pipeBody_pipe b p sc go :
  fst (fst (pipeBody b p sc go)) = tickPipe b p.
Proof.
  unfold pipeBody, tickPipe. now destruct (scores b (movePipe p)).
Qed.

Lemma pipeBody_over b p sc go :
  snd (pipeBody b p sc go) = go || hits b p.
Proof.
  unfold pipeBody, hits, tickPipe.
  destruct (scores b (movePipe p)); cbn [snd];
    destruct (detectCollision _ _); now rewrite ?orb_true_r, ?orb_false_r.
Qed.

Lemma pipeBody_score b p sc go :
  snd (fst (pipeBody b p sc go)) == sc + gain b p.
Proof.
  unfold pipeBody, gain.
  destruct (scores b (movePipe p)); cbn [fst snd]; lra.
Qed.

Lemma pipeLoop_pipes b ps : forall sc go,
  fst (fst (pipeLoop b ps sc go)) = map (tickPipe b) ps.
Proof.
  induction ps as [|p rest IH]; intros sc go; [reflexivity|].
  cbn [pipeLoop map].
  pose proof (pipeBody_pipe b p sc go) as Hp.
  destruct (pipeBody b p sc go) as [[p' sc'] go']. cbn [fst] in Hp.
  specialize (IH sc' go').
  destruct (pipeLoop b rest sc' go') as [[rest' sc''] go''].
  cbn [fst] in *. now subst.
Qed.

Lemma pipeLoop_over b ps : forall sc go,
  snd (pipeLoop b ps sc go) = go || existsb (hits b) ps.
Proof.
  induction ps as [|p rest IH]; intros sc go.
  - cbn. now rewrite orb_false_r.
  - cbn [pipeLoop existsb].
    pose proof (pipeBody_over b p sc go) as Hp.
    destruct (pipeBody b p sc go) as [[p' sc'] go']. cbn [snd] in Hp.
    specialize (IH sc' go').
    destruct (pipeLoop b rest sc' go') as [[rest' sc''] go''].
    cbn [snd] in *. subst. now rewrite orb_assoc.
Qed.

Lemma pipeLoop_score b ps : forall sc go,
  snd (fst (pipeLoop b ps sc go)) == sc + totalGain b ps.
Proof.
  induction ps as [|p rest IH]; intros sc go.
  - cbn. lra.
  - cbn [pipeLoop totalGain].
    pose proof (pipeBody_score b p sc go) as Hp.
    destruct (pipeBody b p sc go) as [[p' sc'] go']. cbn [fst snd] in Hp.
    specialize (IH sc' go').
    destruct (pipeLoop b rest sc' go') as [[rest' sc''] go''].
    cbn [fst snd] in *. lra.
Qed.

(** The fields of the state after a frame of a running session. *)
Lemma step_running s :
  running s = true ->
  bird (step s) = birdAt s /\
  velocityY (step s) = velocityY s + gravity /\
  pipes (step s) = recycle (map (tickPipe (birdAt s)) (pipes s)) /\
  score (step s) == score s + totalGain (birdAt s) (pipes s) /\
  gameOver (step s) = overAfter s /\
  running (step s) = negb (overAfter s) /\
  placePipesInterval (step s) = placePipesInterval s && negb (overAfter s) /\
  showMenu (step s) = showMenu s || overAfter s /\
  loaded (step s) = loaded s.
Proof.
  intros Hrun. unfold step, overAfter, birdAt. rewrite Hrun. cbn [negb].
  set (s1 := physics (animate FRAME_TICK_RATE s)).
  assert (Hv : velocityY s1 = velocityY s + gravity).
  { unfold s1, physics, animate. destruct (_ <=? _)%nat; reflexivity. }
  assert (Hp : pipes s1 = pipes s).
  { unfold s1, physics, animate. destruct (_ <=? _)%nat; reflexivity. }
  assert (Hs : score s1 = score s).
  { unfold s1, physics, animate. destruct (_ <=? _)%nat; reflexivity. }
  assert (Hg : gameOver s1 = gameOver s).
  { unfold s1, physics, animate. destruct (_ <=? _)%nat; reflexivity. }
  assert (Hr : running s1 = true).
  { unfold s1, physics, animate. destruct (_ <=? _)%nat; exact Hrun. }
  assert (Hi : placePipesInterval s1 = placePipesInterval s).
  { unfold s1, physics, animate. destruct (_ <=? _)%nat; reflexivity. }
  assert (Hm : showMenu s1 = showMenu s).
  { unfold s1, physics, animate. destruct (_ <=? _)%nat; reflexivity. }
  assert (Hl : loaded s1 = loaded s).
  { unfold s1, physics, animate. destruct (_ <=? _)%nat; reflexivity. }
  rewrite Hp, Hs, Hg.
  pose proof (pipeLoop_pipes (bird s1) (pipes s) (score s) (gameOver s)) as L1.
  pose proof (pipeLoop_over (bird s1) (pipes s) (score s) (gameOver s)) as L2.
  pose proof (pipeLoop_score (bird s1) (pipes s) (score s) (gameOver s)) as L3.
  destruct (pipeLoop (bird s1) (pipes s) (score s) (gameOver s)) as [[ps sc] go].
  cbn [fst snd] in L1, L2, L3. fields.
  rewrite <- L1, <- L2.
  destruct (Qgtb (Bird.y (bird s1)) (BOARD_H - BIRD_H)); fields.
  - rewrite orb_true_r. cbn [negb]. fields.
    rewrite andb_false_r, orb_true_r. repeat split; auto.
  - rewrite orb_false_r. destruct go; cbn [negb]; fields;
      rewrite ?andb_false_r, ?andb_true_r, ?orb_true_r, ?orb_false_r;
      repeat split; auto.
Qed.

Lemma step_stopped s : running s = false -> step s = s.
Proof. intros H. unfold step. now rewrite H. Qed.

(** ** Constants, evaluated *)

Lemma BIRD_X_val : BIRD_X == 45.
Proof. reflexivity. Qed.

Lemma BIRD_Y_val : BIRD_Y == 320.
Proof. reflexivity. Qed.

Lemma openingSpace_val : openingSpace == 160.
Proof. reflexivity. Qed.

Lemma randomPipeY_val r : randomPipeY r == -128 - 256 * r.
Proof. unfold randomPipeY, PIPE_H. field. Qed.

Lemma randomPipeY_range r :
  0 <= r -> r < 1 ->
  - PIPE_H / 4 - PIPE_H / 2 < randomPipeY r /\ randomPipeY r <= - PIPE_H / 4.
Proof.
  intros H0 H1. rewrite randomPipeY_val.
  assert (E1 : - PIPE_H / 4 - PIPE_H / 2 == -384) by reflexivity.
  assert (E2 : - PIPE_H / 4 == -128) by reflexivity.
  rewrite E1, E2. split; lra.
Qed.

(** ** One frame on one pipe *)

Lemma birdAt_fields s :
  Bird.x (birdAt s) = Bird.x (bird s) /\
  Bird.y (birdAt s) = Bird.y (bird s) + (velocityY s + gravity) /\
  Bird.width (birdAt s) = Bird.width (bird s) /\
  Bird.height (birdAt s) = Bird.height (bird s).
Proof.
  unfold birdAt, physics, animate. destruct (_ <=? _)%nat; fields; auto.
Qed.

Lemma tickPipe_fields b p :
  Pipe.img (tickPipe b p) = Pipe.img p /\
  Pipe.x (tickPipe b p) = Pipe.x p + -2 /\
  Pipe.y (tickPipe b p) = Pipe.y p /\
  Pipe.width (tickPipe b p) = Pipe.width p /\
  Pipe.height (tickPipe b p) = Pipe.height p /\
  Pipe.passed (tickPipe b p) =
    Pipe.passed p || Qgtb (Bird.x b) (Pipe.x p + -2 + Pipe.width p).
Proof.
  unfold tickPipe, scores, movePipe. destruct p as [i x y w h pa]. fields.
  destruct pa; cbn [negb andb orb]; fields.
  - repeat split.
  - destruct (Qgtb _ _); fields; repeat split.
Qed.

Lemma gain_cases b p :
  (gain b p = 0.5 /\ Pipe.passed p = false /\ Pipe.passed (tickPipe b p) = true /\
   Pipe.x (tickPipe b p) + Pipe.width (tickPipe b p) < Bird.x b) \/
  (gain b p = 0 /\ Pipe.passed (tickPipe b p) = Pipe.passed p).
Proof.
  unfold gain, tickPipe, scores, movePipe. destruct p as [i x y w h pa]. fields.
  destruct pa; cbn [negb andb]; fields; auto.
  destruct (Qgtb _ _) eqn:E; fields; auto.
  left. apply Qgtb_true in E. auto.
Qed.

Lemma gain_nonneg b p : 0 <= gain b p.
Proof. unfold gain. destruct (scores _ _); lra. Qed.

Lemma totalGain_nonneg b ps : 0 <= totalGain b ps.
Proof.
  induction ps as [|p rest IH]; cbn [totalGain]; [lra|].
  pose proof (gain_nonneg b p). lra.
Qed.

(** ** The invariants are kept *)

Lemma pipeOk_bird b b' p :
  Bird.x b' = Bird.x b -> pipeOk b p -> pipeOk b' p.
Proof.
  intros E [Hw Hh Hx Hy Hp]. split; auto. now rewrite E.
Qed.

Lemma pipeOk_tick b p : pipeOk b p -> pipeOk b (tickPipe b p).
Proof.
  intros [Hw Hh Hx Hy Hp].
  destruct (tickPipe_fields b p) as (_ & Ex & Ey & Ew & Eh & Epass).
  split; rewrite ?Ex, ?Ey, ?Ew, ?Eh; auto.
  - lra.
  - rewrite Epass. intros H. apply orb_true_iff in H as [H|H].
    + specialize (Hp H). lra.
    + now apply Qgtb_true in H.
Qed.

Lemma Paired_tick b ps : Paired ps -> Paired (map (tickPipe b) ps).
Proof.
  induction 1 as [|u l rest Hx Hy Hw Hh Hp _ IH]; cbn [map]; constructor; auto.
  all: destruct (tickPipe_fields b u) as (_ & Ex & Ey & Ew & Eh & Epass).
  all: destruct (tickPipe_fields b l) as (_ & Ex' & Ey' & Ew' & Eh' & Epass').
  all: congruence.
Qed.

Lemma Paired_recycle ps : Paired ps -> Paired (recycle ps).
Proof.
  induction 1 as [|u l rest Hx Hy Hw Hh Hp Hrest IH]; cbn [recycle].
  - constructor.
  - rewrite <- Hx. destruct (Qltb (Pipe.x u) (- PIPE_W)); auto.
    now constructor.
Qed.

Lemma Paired_spawn r ps :
  Paired ps -> Paired ((ps ++ [topPipe r]) ++ [bottomPipe r]).
Proof.
  induction 1; cbn [app]; constructor; auto. constructor.
Qed.

Lemma Forall_recycle (P : Pipe.t -> Prop) ps :
  Forall P ps -> Forall P (recycle ps).
Proof.
  induction 1 as [|p rest Hp Hrest IH]; cbn [recycle]; auto.
  destruct (Qltb _ _); auto.
Qed.

Lemma ascending_tick b ps : ascending ps -> ascending (map (tickPipe b) ps).
Proof.
  induction ps as [|p rest IH]; cbn [ascending map]; auto.
  intros [H1 H2]. split; auto.
  apply Forall_map. revert H1. apply Forall_impl. intros q Hq.
  destruct (tickPipe_fields b p) as (_ & Ex & _).
  destruct (tickPipe_fields b q) as (_ & Ex' & _).
  rewrite Ex, Ex'. lra.
Qed.

Lemma ascending_recycle ps : ascending ps -> ascending (recycle ps).
Proof.
  induction ps as [|p rest IH]; cbn [recycle]; auto.
  intros H. destruct (Qltb _ _); auto. apply IH, H.
Qed.

Lemma ascending_push ps q :
  Forall (fun p => Pipe.x p <= Pipe.x q) ps -> ascending ps -> ascending (ps ++ [q]).
Proof.
  induction ps as [|p rest IH]; cbn [app ascending]; intros Hall Hasc.
  - auto.
  - inversion Hall as [|p' rest' Hp Hrest]; subst.
    destruct Hasc as [Ha Hb]. split; auto.
    apply Forall_app. auto.
Qed.

(** After the recycling loop nothing left of the board remains. *)
Lemma recycle_clean ps :
  ascending ps -> Forall (fun p => - PIPE_W <= Pipe.x p) (recycle ps).
Proof.
  induction ps as [|p rest IH]; cbn [recycle]; auto.
  intros [H1 H2]. destruct (Qltb _ _) eqn:E; auto.
  apply Qltb_false in E. constructor; auto.
  revert H1. apply Forall_impl. intros q Hq. lra.
Qed.

(** The recycling loop keeps a suffix of the sequence. *)
Lemma recycle_suffix ps : exists gone, ps = gone ++ recycle ps /\
  Forall (fun p => Pipe.x p < - PIPE_W) gone.
Proof.
  induction ps as [|p rest (gone & E & H)]; cbn [recycle].
  - now exists [].
  - destruct (Qltb _ _) eqn:Ep.
    + exists (p :: gone). split; [cbn; congruence|].
      constructor; auto. now apply Qltb_true.
    + now exists [].
Qed.

Lemma quarter_val : - PIPE_H / 4 == -128.
Proof. reflexivity. Qed.

Lemma half_val : PIPE_H / 2 == 256.
Proof. reflexivity. Qed.

(** Brings the values of the constants into a goal of linear arithmetic. *)
Ltac numbers :=
  pose proof BIRD_X_val; pose proof BIRD_Y_val; pose proof openingSpace_val;
  pose proof quarter_val; pose proof half_val;
  unfold PIPE_W, PIPE_X, BOARD_W, BIRD_W, BIRD_H, BOARD_H, PIPE_H, gravity in *.

Lemma pipeOk_top b r : 0 <= r -> r < 1 -> pipeOk b (topPipe r).
Proof.
  intros H0 H1. destruct (randomPipeY_range r H0 H1) as [Hlo Hhi].
  split; unfold topPipe; fields; try reflexivity; try discriminate; auto.
Qed.

Lemma pipeOk_bottom b r : 0 <= r -> r < 1 -> pipeOk b (bottomPipe r).
Proof.
  intros H0 H1. destruct (randomPipeY_range r H0 H1) as [Hlo Hhi].
  split; unfold bottomPipe; fields; try reflexivity; try discriminate.
  numbers. lra.
Qed.

Lemma Inv_initialState : Inv initialState.
Proof.
  split; unfold initialState; fields; auto; try discriminate;
    try constructor; try (intros [H|H]; discriminate); try apply Qle_refl.
Qed.

Lemma Inv_idleLoop s : Inv s -> Inv (idleLoop s).
Proof.
  intros []. unfold idleLoop, animate.
  destruct (_ <=? _)%nat; split; fields; auto.
Qed.

Lemma Inv_checkLoaded s : Inv s -> Inv (checkLoaded s).
Proof.
  intros []. unfold checkLoaded. fields.
  destruct (negb (loaded s) && _); split; fields; auto.
Qed.

Lemma Inv_spawnPipePair r s :
  0 <= r -> r < 1 -> Inv s -> Inv (spawnPipePair r s).
Proof.
  intros H0 H1 []. unfold spawnPipePair. split; fields; auto.
  - repeat (apply Forall_app; split); auto.
    + constructor; [now apply pipeOk_top | constructor].
    + constructor; [now apply pipeOk_bottom | constructor].
  - now apply Paired_spawn.
  - apply ascending_push.
    + apply Forall_app. split.
      * revert inv_pipes0. apply Forall_impl. intros p Hp. apply Hp.
      * constructor; [apply Qle_refl | constructor].
    + apply ascending_push; auto.
      revert inv_pipes0. apply Forall_impl. intros p Hp. apply Hp.
Qed.

Lemma Inv_placePipes r s :
  0 <= r -> r < 1 -> Inv s -> Inv (placePipes r s).
Proof.
  intros H0 H1 H. unfold placePipes.
  destruct (gameOver s); cbn [negb]; auto using Inv_spawnPipePair.
Qed.

Lemma startGame_fields r s :
  bird (startGame r s) = Bird.mk BIRD_X BIRD_Y BIRD_W BIRD_H /\
  velocityY (startGame r s) = 0 /\
  pipes (startGame r s) = [topPipe r; bottomPipe r] /\
  score (startGame r s) = 0 /\
  gameOver (startGame r s) = false /\
  placePipesInterval (startGame r s) = true /\
  running (startGame r s) = true /\
  showMenu (startGame r s) = false /\
  loaded (startGame r s) = loaded s.
Proof. repeat split. Qed.

Lemma Inv_startGame r s :
  0 <= r -> r < 1 -> loaded s = true -> Inv (startGame r s).
Proof.
  intros H0 H1 Hl.
  destruct (startGame_fields r s) as (Eb & Ev & Ep & Es & Eg & Ei & Er & Em & El).
  split; rewrite ?Eb, ?Ep, ?Es, ?Eg, ?Ei, ?Er, ?Em, ?El; fields; auto;
    try discriminate.
  - constructor; [now apply pipeOk_top|].
    constructor; [now apply pipeOk_bottom | constructor].
  - constructor; try reflexivity. constructor.
  - cbn [ascending]. repeat split; repeat constructor. apply Qle_refl.
Qed.

Lemma Inv_flap r s : 0 <= r -> r < 1 -> Inv s -> Inv (flap r s).
Proof.
  intros H0 H1 H. unfold flap.
  destruct (running s) eqn:Er; cbn [negb].
  - destruct (gameOver s) eqn:Eg.
    + apply Inv_startGame; auto. apply H. now left.
    + destruct H. split; fields; auto.
  - destruct (showMenu s); cbn [andb]; auto.
    destruct (loaded s) eqn:El; auto using Inv_startGame.
Qed.

Lemma Inv_startButton r s : 0 <= r -> r < 1 -> Inv s -> Inv (startButton r s).
Proof.
  intros H0 H1 H. unfold startButton.
  destruct (showMenu s); auto.
  destruct (loaded s) eqn:El; cbn [negb]; auto using Inv_startGame.
Qed.

Lemma Inv_step s : Inv s -> Inv (step s).
Proof.
  intros H. destruct (running s) eqn:Er.
  2: { now rewrite step_stopped. }
  destruct (step_running s Er) as (Eb & Ev & Ep & Es & Eg & Er' & Ei & Em & El).
  destruct (birdAt_fields s) as (Bx & By & Bw & Bh).
  destruct H.
  split; rewrite ?Eb, ?Ep, ?Eg, ?Er', ?Ei, ?Em, ?El, ?Bx, ?Bw, ?Bh.
  - assumption.
  - assumption.
  - assumption.
  - apply Forall_recycle, Forall_map.
    revert inv_pipes0. apply Forall_impl. intros p Hp.
    apply pipeOk_tick. now apply (pipeOk_bird (bird s)).
  - now apply Paired_recycle, Paired_tick.
  - now apply ascending_recycle, ascending_tick.
  - rewrite inv_menu0, Er. cbn [negb orb]. now rewrite negb_involutive.
  - now rewrite inv_timer0, Er.
  - now intros ->.
  - intros _. apply inv_loaded0. now left.
  - rewrite Es. pose proof (totalGain_nonneg (birdAt s) (pipes s)). lra.
Qed.

Lemma Inv_handle e s : validEvent e -> Inv s -> Inv (handle e s).
Proof.
  destruct e; cbn [handle validEvent]; intros Hv H.
  - now apply Inv_step.
  - now apply Inv_idleLoop.
  - now apply Inv_flap.
  - now apply Inv_startButton.
  - destruct (placePipesInterval s); auto. now apply Inv_placePipes.
  - now apply Inv_checkLoaded.
Qed.

Lemma reachable_Inv s : reachable s -> Inv s.
Proof.
  induction 1; [apply Inv_initialState | now apply Inv_handle].
Qed.

Lemma reachable_run es s :
  Forall validEvent es -> reachable s -> reachable (run es s).
Proof.
  revert s. induction es as [|e es IH]; intros s Hall Hs; cbn [run]; auto.
  inversion Hall; subst. apply IH; auto. now constructor.
Qed.

(** ** Pairs by index *)

Lemma Paired_even ps : Paired ps -> Nat.even (length ps) = true.
Proof. induction 1; cbn [length Nat.even]; auto. Qed.

Lemma Paired_nth ps : Paired ps ->
  forall k u l,
    nth_error ps (2 * k) = Some u -> nth_error ps (2 * k + 1) = Some l ->
    Pipe.x u = Pipe.x l /\
    Pipe.y l = Pipe.y u + PIPE_H + openingSpace /\
    Pipe.width u = Pipe.width l /\
    Pipe.height u = PIPE_H /\
    Pipe.passed u = Pipe.passed l.
Proof.
  induction 1 as [|u0 l0 rest Hx Hy Hw Hh Hp _ IH]; intros k u l Hu Hl.
  - destruct k; discriminate.
  - destruct k as [|k].
    + cbn in Hu, Hl. injection Hu as <-. injection Hl as <-. auto.
    + replace (2 * S k)%nat with (S (S (2 * k))) in Hu by lia.
      replace (2 * S k + 1)%nat with (S (S (2 * k + 1))) in Hl by lia.
      cbn [nth_error] in Hu, Hl. eauto.
Qed.

(** The recycling loop takes whole pairs off the front. *)
Lemma Paired_recycle_split ps : Paired ps ->
  exists gone, ps = gone ++ recycle ps /\ Paired gone /\
    Forall (fun p => Pipe.x p < - PIPE_W) gone.
Proof.
  induction 1 as [|u l rest Hx Hy Hw Hh Hp Hrest (gone & E & Hg & Hall)].
  - exists []. repeat split; constructor.
  - cbn [recycle]. rewrite <- Hx. destruct (Qltb (Pipe.x u) (- PIPE_W)) eqn:Eu.
    + exists (u :: l :: gone). apply Qltb_true in Eu. repeat split.
      * cbn [app]. congruence.
      * now constructor.
      * repeat constructor; auto. now rewrite <- Hx.
    + exists []. repeat split; constructor.
Qed.

(** ** An obstacle followed over several frames *)

Lemma followPipe_spec b p n :
  let q := fst (followPipe b n p) in
  let g := snd (followPipe b n p) in
  Pipe.x q == Pipe.x p - 2 * inject_Z (Z.of_nat n) /\
  Pipe.width q = Pipe.width p /\
  (Pipe.passed p = true -> Pipe.passed q = true) /\
  (Pipe.passed q = true -> Pipe.passed p = false ->
     Pipe.x q + Pipe.width q < Bird.x b) /\
  g == (if Pipe.passed p then 0 else if Pipe.passed q then 0.5 else 0).
Proof.
  induction n as [|n IH]; cbn [followPipe].
  - cbn [fst snd]. repeat split; auto.
    + change (inject_Z (Z.of_nat 0)) with 0. lra.
    + congruence.
    + destruct (Pipe.passed p); lra.
  - destruct (followPipe b n p) as [q g]. cbn [fst snd] in *.
    destruct IH as (Hx & Hw & Hmono & Hpast & Hg).
    destruct (tickPipe_fields b q) as (_ & Ex & _ & Ew & _ & Epass).
    rewrite Ex, Ew. repeat split.
    + rewrite Hx, Nat2Z.inj_succ, <- Z.add_1_r, inject_Z_plus.
      change (inject_Z 1) with 1. lra.
    + assumption.
    + intros H. rewrite Epass, (Hmono H). reflexivity.
    + intros H Hp. rewrite Epass in H. apply orb_true_iff in H as [H|H].
      * specialize (Hpast H Hp). lra.
      * apply Qgtb_true in H. exact H.
    + destruct (gain_cases b q) as [(Eg & Hq & Hq' & _)|(Eg & Hq)].
      * rewrite Eg, Hq', Hg, Hq.
        destruct (Pipe.passed p) eqn:Hp; [|lra].
        specialize (Hmono eq_refl). congruence.
      * rewrite Eg, Hq, Hg. destruct (Pipe.passed p), (Pipe.passed q); lra.
Qed.

(** ** After game over *)

Lemma halted_handle e s :
  halted s -> isRestart e = false ->
  halted (handle e s) /\ pipes (handle e s) = pipes s /\
  bird (handle e s) = bird s /\ score (handle e s) = score s.
Proof.
  intros (Hg & Hr & Hi) He. unfold halted.
  destruct e; try discriminate; cbn [handle].
  - rewrite step_stopped; auto.
  - unfold idleLoop, animate. destruct (_ <=? _)%nat; fields; auto.
  - rewrite Hi. auto.
  - unfold checkLoaded. fields. destruct (negb (loaded s) && _); fields; auto.
Qed.

Lemma halted_run es : forall s,
  halted s -> Forall (fun e => isRestart e = false) es ->
  halted (run es s) /\ pipes (run es s) = pipes s /\
  bird (run es s) = bird s /\ score (run es s) = score s.
Proof.
  induction es as [|e es IH]; intros s Hs Hall; cbn [run]; auto.
  inversion Hall as [|e' es' He Hes]; subst.
  destruct (halted_handle e s Hs He) as (Hs' & Ep & Eb & Esc).
  destruct (IH _ Hs' Hes) as (H1 & H2 & H3 & H4).
  repeat split; try apply H1; congruence.
Qed.

Lemma Inv_halted s : Inv s -> gameOver s = true -> halted s.
Proof.
  intros H Hg. pose proof (inv_over s H Hg) as Hr.
  repeat split; auto. now rewrite (inv_timer s H).
Qed.


(** ** The scenarios are reachable *)

Lemma valid_flap0 : validEvent (Flap 0).
Proof. split; [apply Qle_refl | reflexivity]. Qed.

Lemma valid_fall n : Forall validEvent (fall n).
Proof. induction n; cbn; constructor; auto. exact I. Qed.

Lemma valid_climb n : Forall validEvent (climb n).
Proof.
  induction n; cbn; constructor; [apply valid_flap0|].
  constructor; [exact I | assumption].
Qed.

Lemma reachable_step s : reachable s -> reachable (step s).
Proof. intros H. exact (reachable_handle Tick s H I). Qed.

Lemma reachable_assetsReady : reachable assetsReady.
Proof.
  unfold assetsReady. apply reachable_run; [repeat constructor | apply reachable_init].
Qed.

Lemma reachable_started : reachable started.
Proof.
  unfold started. apply reachable_handle; [apply reachable_assetsReady | apply valid_flap0].
Qed.

Lemma reachable_beforeGround : reachable beforeGround.
Proof.
  unfold beforeGround.
  apply reachable_run; [apply valid_fall | apply reachable_started].
Qed.

Lemma reachable_grounded : reachable grounded.
Proof. unfold grounded. apply reachable_step, reachable_beforeGround. Qed.

Lemma reachable_beforeHit : reachable beforeHit.
Proof.
  unfold beforeHit. apply reachable_run.
  - apply Forall_app. split; [apply valid_fall|].
    apply Forall_app. split; [apply valid_climb|].
    constructor; [apply valid_flap0 | constructor].
  - apply reachable_handle; [apply reachable_assetsReady|].
    split; [discriminate | reflexivity].
Qed.

Lemma reachable_beforeScore : reachable beforeScore.
Proof.
  unfold beforeScore. apply reachable_run; [|apply reachable_started].
  apply Forall_app. split; [apply valid_climb|].
  constructor; [apply valid_flap0 | constructor].
Qed.

Lemma reachable_beforeRecycle : reachable beforeRecycle.
Proof.
  unfold beforeRecycle. apply reachable_run; [|apply reachable_started].
  apply Forall_app. split; [apply valid_climb|].
  constructor; [apply valid_flap0 | constructor].
Qed.

(** ** The claims *)

(** C1: in every frame of a running session the physics update first adds
    the gravity constant to the vertical velocity and then adds the new
    velocity to the bird's y ([velocity' = velocity + g], [y' = y +
    velocity']), whatever the old velocity was; nothing clamps the new
    velocity: it is above every bound that the sum [velocity + g] is
    above. *)
Theorem C1_gravity_then_position (s : State) :
  running s = true ->
  velocityY (step s) = velocityY s + gravity /\
  Bird.y (bird (step s)) = Bird.y (bird s) + velocityY (step s) /\
  (forall cap, cap < velocityY s + gravity -> cap < velocityY (step s)).
Proof.
  intros Hrun.
  destruct (step_running s Hrun) as (Eb & Ev & _).
  destruct (birdAt_fields s) as (_ & By & _).
  rewrite Eb, Ev, By. repeat split.
  intros cap Hcap. exact Hcap.
Qed.

Lemma C1_witness :
  running started = true /\
  velocityY (step started) = velocityY started + gravity /\
  Bird.y (bird (step started)) = Bird.y (bird started) + velocityY (step started).
Proof.
  assert (R : running started = true) by reflexivity.
  destruct (C1_gravity_then_position started R) as (A & B & _).
  exact (conj R (conj A B)).
Defined.

(** The sum of line 185 is a rounded one: from [2^53] on, adding the
    gravity constant returns the velocity it was added to. *)
Example velocity_sum_is_rounded :
  PrimFloat.eqb (IEEE.nextVelocity 0x1p53) 0x1p53 = true /\
  PrimFloat.ltb 0x1p52 (IEEE.nextVelocity 0x1p52) = false /\
  PrimFloat.ltb 1000 (IEEE.nextVelocity 1000) = true.
Proof. vm_compute. repeat split. Qed.

Lemma followPipe_flag b p n :
  Pipe.passed p = false ->
  let q := fst (followPipe b (S n) p) in
  Pipe.passed q = Qgtb (Bird.x b) (Pipe.x q + Pipe.width q).
Proof.
  intros Hp. induction n as [|n IH].
  - cbn [followPipe fst].
    destruct (tickPipe_fields b p) as (_ & Ex & _ & Ew & _ & Epass).
    rewrite Epass, Ex, Ew, Hp. reflexivity.
  - remember (S n) as m. cbn [followPipe].
    destruct (followPipe b m p) as [q g]. cbn [fst] in *.
    destruct (tickPipe_fields b q) as (_ & Ex & _ & Ew & _ & Epass).
    rewrite Epass, Ex, Ew, IH.
    destruct (Qgtb (Bird.x b) (Pipe.x q + Pipe.width q)) eqn:E; [|reflexivity].
    apply Qgtb_true in E. cbn [orb]. symmetry. apply Qgtb_true. lra.
Qed.

Lemma running_not_over s : Inv s -> running s = true -> gameOver s = false.
Proof.
  intros H Hr. destruct (gameOver s) eqn:Eg; auto.
  rewrite (inv_over s H Eg) in Hr. discriminate.
Qed.

Lemma score_handle_running s e :
  Inv s -> running s = true -> score s <= score (handle e s).
Proof.
  intros H Hr. pose proof (running_not_over s H Hr) as Hg.
  destruct e; cbn [handle].
  - destruct (step_running s Hr) as (_ & _ & _ & Es & _). rewrite Es.
    pose proof (totalGain_nonneg (birdAt s) (pipes s)). lra.
  - unfold idleLoop, animate. destruct (_ <=? _)%nat; fields; apply Qle_refl.
  - unfold flap. rewrite Hr, Hg. fields. apply Qle_refl.
  - unfold startButton. rewrite (inv_menu s H), Hr. apply Qle_refl.
  - unfold placePipes, spawnPipePair.
    destruct (placePipesInterval s); [|apply Qle_refl].
    rewrite Hg. fields. apply Qle_refl.
  - unfold checkLoaded. fields.
    destruct (negb (loaded s) && _); fields; apply Qle_refl.
Qed.

Lemma pipeBody_scored b p sc go :
  scores b (movePipe p) = true ->
  fst (pipeBody b p sc go) = (Pipe.set_passed (movePipe p) true, sc + 0.5).
Proof. intros E. unfold pipeBody. now rewrite E. Qed.

Lemma pipeBody_unscored b p sc go :
  scores b (movePipe p) = false ->
  fst (pipeBody b p sc go) = (movePipe p, sc).
Proof. intros E. unfold pipeBody. now rewrite E. Qed.

(** C2: an obstacle is scored once.  In a frame of a running session the
    iteration of the loop on an obstacle whose flag is unset and whose
    right edge, after the move of that frame, is left of the bird's left
    edge sets its flag and adds exactly 0.5 to the score; on any other
    obstacle, and so on one whose flag is set, it leaves flag and score
    as they are; the frame adds to the score the sum of these.  Followed
    over any number of frames an obstacle has added 0.5 if its flag is
    set and 0 if not, and its flag is set from the first frame in which
    the bird's left edge is past its right edge.  No input or frame of a
    running session lowers the score. *)
Theorem C2_score_once_per_obstacle
  (s : State) (p : Pipe.t) (sc : Q) (go : bool) (n : nat) (e : Event) :
  reachable s -> running s = true ->
  let b := bird (step s) in
  let crossed q := Bird.x b > Pipe.x q + Pipe.width q in
  (Pipe.passed p = false -> crossed (movePipe p) ->
     fst (pipeBody b p sc go) = (Pipe.set_passed (movePipe p) true, sc + 0.5)) /\
  (Pipe.passed p = false -> ~ crossed (movePipe p) ->
     fst (pipeBody b p sc go) = (movePipe p, sc)) /\
  (Pipe.passed p = true ->
     fst (pipeBody b p sc go) = (movePipe p, sc) /\
     Pipe.passed (movePipe p) = true) /\
  (fst (fst (pipeBody b p sc go)) = tickPipe b p /\
   snd (fst (pipeBody b p sc go)) == sc + gain b p) /\
  pipes (step s) = recycle (map (tickPipe b) (pipes s)) /\
  score (step s) == score s + totalGain b (pipes s) /\
  (Pipe.passed p = false ->
     snd (followPipe b n p) ==
       (if Pipe.passed (fst (followPipe b n p)) then 0.5 else 0) /\
     Pipe.passed (fst (followPipe b (S n) p)) =
       Qgtb (Bird.x b)
         (Pipe.x (fst (followPipe b (S n) p)) +
          Pipe.width (fst (followPipe b (S n) p)))) /\
  (Pipe.passed p = true -> snd (followPipe b n p) == 0) /\
  score s <= score (handle e s).
Proof.
  intros Hreach Hrun b crossed. subst crossed.
  pose proof (reachable_Inv s Hreach) as H.
  destruct (step_running s Hrun) as (Eb & _ & Ep & Es & _).
  subst b. rewrite Eb. set (b := birdAt s).
  assert (Hsc : scores b (movePipe p) =
                negb (Pipe.passed p) &&
                Qgtb (Bird.x b) (Pipe.x (movePipe p) + Pipe.width (movePipe p)))
    by reflexivity.
  split; [|split; [|split; [|split; [|split; [|split; [|split; [|split]]]]]]].
  - intros Hp Hx. apply pipeBody_scored. rewrite Hsc, Hp.
    now apply Qgtb_true.
  - intros Hp Hx. apply pipeBody_unscored. rewrite Hsc, Hp. cbn [negb andb].
    apply not_true_iff_false. intros E. apply Hx. now apply Qgtb_true.
  - intros Hp. split; [|exact Hp].
    apply pipeBody_unscored. now rewrite Hsc, Hp.
  - split; [apply pipeBody_pipe | apply pipeBody_score].
  - exact Ep.
  - exact Es.
  - intros Hp. split.
    + destruct (followPipe_spec b p n) as (_ & _ & _ & _ & Hg).
      cbv zeta in Hg. rewrite Hp in Hg. exact Hg.
    + now apply (followPipe_flag b p n).
  - intros Hp. destruct (followPipe_spec b p n) as (_ & _ & _ & _ & Hg).
    cbv zeta in Hg. rewrite Hp in Hg. exact Hg.
  - now apply score_handle_running.
Qed.

Lemma C2_witness :
  running beforeScore = true /\
  pipes (step beforeScore) =
    recycle (map (tickPipe (bird (step beforeScore))) (pipes beforeScore)) /\
  score (step beforeScore) ==
    score beforeScore + totalGain (bird (step beforeScore)) (pipes beforeScore) /\
  score beforeScore <= score (handle Tick beforeScore).
Proof.
  assert (R : running beforeScore = true) by (vm_compute; reflexivity).
  pose proof (C2_score_once_per_obstacle beforeScore (topPipe 0) 0 false
                190 Tick reachable_beforeScore R) as H.
  cbv zeta in H. destruct H as (_ & _ & _ & _ & Hp & Hs & _ & _ & Hm).
  exact (conj R (conj Hp (conj Hs Hm))).
Defined.

(** The scenario of the specification: the bird crosses the first pair
    without touching it; both flags flip in frame 190 and the score goes
    from 0 to exactly 1. *)
Example pair_crossed_scores_one :
  score beforeScore == 0 /\
  map Pipe.passed (pipes beforeScore) = [false; false] /\
  score (step beforeScore) == 1 /\
  map Pipe.passed (pipes (step beforeScore)) = [true; true] /\
  gameOver (step beforeScore) = false.
Proof. vm_compute. repeat split; reflexivity. Qed.

Lemma detectCollision_true a b :
  detectCollision a b = true <->
  Bird.x a < Pipe.x b + Pipe.width b /\
  Bird.x a + Bird.width a > Pipe.x b /\
  Bird.y a < Pipe.y b + Pipe.height b /\
  Bird.y a + Bird.height a > Pipe.y b.
Proof.
  unfold detectCollision. rewrite !andb_true_iff, !Qltb_true, !Qgtb_true.
  tauto.
Qed.

Lemma existsb_hits b ps p :
  In p ps -> hits b p = true -> existsb (hits b) ps = true.
Proof. intros Hin Hh. apply existsb_exists. now exists p. Qed.

(** C3: the collision test is the axis-aligned overlap test of the four
    strict comparisons; in every frame of a running session the loop
    applies it to the bird and to every obstacle of the sequence (each as
    moved in that frame) and raises the game-over flag when it holds, so
    one obstacle that overlaps sets the flag in that same frame.  Once a frame has set the flag, no frame, timer
    or asset event moves an obstacle or spawns one: the sequence stays
    as it is until a restart input. *)
Theorem C3_collision_ends_the_session
  (s : State) (p : Pipe.t) (es : list Event) :
  reachable s -> running s = true -> In p (pipes s) ->
  Forall (fun e => isRestart e = false) es ->
  let a := bird (step s) in
  let b := tickPipe a p in
  (forall a b,
     detectCollision a b = true <->
     Bird.x a < Pipe.x b + Pipe.width b /\
     Bird.x a + Bird.width a > Pipe.x b /\
     Bird.y a < Pipe.y b + Pipe.height b /\
     Bird.y a + Bird.height a > Pipe.y b) /\
  (forall sc go, snd (pipeBody a p sc go) = go || detectCollision a b) /\
  (detectCollision a b = true -> gameOver (step s) = true) /\
  (gameOver (step s) = true ->
     pipes (run es (step s)) = pipes (step s) /\
     gameOver (run es (step s)) = true).
Proof.
  intros Hreach Hrun Hin Hes a b.
  destruct (step_running s Hrun) as (Eb & _ & _ & _ & Eg & _).
  split; [exact detectCollision_true|].
  split; [intros sc go; apply pipeBody_over|]. split.
  - intros Hhit. rewrite Eg. unfold overAfter.
    subst b a. rewrite Eb in Hhit.
    rewrite (existsb_hits (birdAt s) (pipes s) p Hin Hhit).
    now rewrite orb_true_r.
  - intros Hover.
    pose proof (reachable_Inv _ (reachable_step s Hreach)) as H'.
    destruct (halted_run es (step s) (Inv_halted _ H' Hover) Hes)
      as ((Hg & _) & Hp & _).
    auto.
Qed.

Lemma C3_witness :
  running beforeHit = true /\
  (exists p,
     In p (pipes beforeHit) /\
     detectCollision (bird (step beforeHit)) (tickPipe (bird (step beforeHit)) p)
       = true) /\
  gameOver (step beforeHit) = true /\
  pipes (run [Tick; SpawnTimer 0.5; IdleFrame; Tick] (step beforeHit))
    = pipes (step beforeHit).
Proof.
  assert (R : running beforeHit = true) by (vm_compute; reflexivity).
  assert (N : nth_error (pipes beforeHit) 0 <> None) by (vm_compute; discriminate).
  destruct (nth_error (pipes beforeHit) 0) as [p|] eqn:E; [|now elim N].
  assert (Hin : In p (pipes beforeHit)) by exact (nth_error_In _ _ E).
  assert (Hhit :
    match nth_error (pipes beforeHit) 0 with
    | Some p => detectCollision (bird (step beforeHit))
                  (tickPipe (bird (step beforeHit)) p)
    | None => false
    end = true) by (vm_compute; reflexivity).
  rewrite E in Hhit.
  assert (Hes : Forall (fun e => isRestart e = false)
                  [Tick; SpawnTimer 0.5; IdleFrame; Tick])
    by (repeat constructor).
  pose proof (C3_collision_ends_the_session beforeHit p _
                reachable_beforeHit R Hin Hes) as H.
  cbv zeta in H. destruct H as (_ & _ & Hover & Hfrozen).
  pose proof (Hover Hhit) as G.
  exact (conj R (conj (ex_intro _ p (conj Hin Hhit)) (conj G (proj1 (Hfrozen G))))).
Defined.

(** C4: [flap] is a case analysis on what the handler reads: the game-over
    ref and the [running], [showMenu] and [loaded] of the render that
    registered it.  It is stated for every state, and so also for a
    handler that runs after a game-over frame and before the next render,
    which still reads [running = true].  Running and not game over: the
    velocity becomes the impulse [-6] whatever it was, and nothing else
    changes.  Game over (the menu shown exactly when not running, the
    assets loaded): a full restart, by [startGame]: score 0, exactly one
    fresh pair, velocity 0, the bird at its initial position, running,
    not game over.  Idle with the menu shown and the assets loaded: the
    session starts.  Idle and not loaded: the state is returned as it
    is. *)
Theorem C4_flap_case_analysis (s : State) (r : Q) :
  (running s = true -> gameOver s = false ->
     flap r s = set_velocityY (-6) s /\ velocityY (flap r s) = -6) /\
  (gameOver s = true -> showMenu s = negb (running s) -> loaded s = true ->
     flap r s = startGame r s) /\
  (reachable s -> gameOver s = true -> flap r s = startGame r s) /\
  (running s = false -> gameOver s = false -> showMenu s = true ->
     loaded s = true -> flap r s = startGame r s) /\
  (running s = false -> loaded s = false -> flap r s = s) /\
  (score (startGame r s) = 0 /\
   pipes (startGame r s) = [topPipe r; bottomPipe r] /\
   velocityY (startGame r s) = 0 /\
   bird (startGame r s) = Bird.mk BIRD_X BIRD_Y BIRD_W BIRD_H /\
   running (startGame r s) = true /\
   gameOver (startGame r s) = false).
Proof.
  assert (Hover : gameOver s = true -> showMenu s = negb (running s) ->
                  loaded s = true -> flap r s = startGame r s).
  { intros Eg Em El. unfold flap. rewrite Em, El, Eg.
    destruct (running s); reflexivity. }
  split; [|split; [|split; [|split; [|split]]]].
  - intros Er Eg. unfold flap. rewrite Er, Eg. split; reflexivity.
  - exact Hover.
  - intros Hreach Eg. pose proof (reachable_Inv s Hreach) as H.
    apply Hover; [exact Eg | apply H | apply H; auto].
  - intros Er Eg Em El. unfold flap. now rewrite Er, Em, El.
  - intros Er El. unfold flap. rewrite Er, El. cbn [negb].
    now rewrite andb_false_r.
  - repeat split.
Qed.

Lemma C4_witness :
  flap 0 initialState = initialState /\
  flap 0 assetsReady = startGame 0 assetsReady /\
  flap 0 beforeGround = set_velocityY (-6) beforeGround /\
  flap 0 grounded = startGame 0 grounded /\
  (running groundedUnrendered = true /\ gameOver groundedUnrendered = true /\
   flap 0 groundedUnrendered = startGame 0 groundedUnrendered).
Proof.
  assert (A1 : running initialState = false) by reflexivity.
  assert (A2 : loaded initialState = false) by reflexivity.
  assert (B1 : running assetsReady = false) by reflexivity.
  assert (B2 : gameOver assetsReady = false) by reflexivity.
  assert (B3 : showMenu assetsReady = true) by reflexivity.
  assert (B4 : loaded assetsReady = true) by reflexivity.
  assert (C1 : running beforeGround = true) by (vm_compute; reflexivity).
  assert (C2 : gameOver beforeGround = false) by (vm_compute; reflexivity).
  assert (D1 : gameOver grounded = true) by (vm_compute; reflexivity).
  assert (E1 : running groundedUnrendered = true) by reflexivity.
  assert (E2 : gameOver groundedUnrendered = true) by (vm_compute; reflexivity).
  assert (E3 : showMenu groundedUnrendered
               = negb (running groundedUnrendered)) by reflexivity.
  assert (E4 : loaded groundedUnrendered = true) by (vm_compute; reflexivity).
  destruct (C4_flap_case_analysis initialState 0) as (_ & _ & _ & _ & F1 & _).
  destruct (C4_flap_case_analysis assetsReady 0) as (_ & _ & _ & F2 & _).
  destruct (C4_flap_case_analysis beforeGround 0) as (F3 & _).
  destruct (C4_flap_case_analysis grounded 0) as (_ & _ & F4 & _).
  destruct (C4_flap_case_analysis groundedUnrendered 0) as (_ & F5 & _).
  exact (conj (F1 A1 A2) (conj (F2 B1 B2 B3 B4) (conj (proj1 (F3 C1 C2))
          (conj (F4 reachable_grounded D1)
             (conj E1 (conj E2 (F5 E2 E3 E4))))))).
Defined.




Lemma pipeOk_moved s :
  Inv s -> Forall (pipeOk (birdAt s)) (map (tickPipe (birdAt s)) (pipes s)).
Proof.
  intros H. destruct (birdAt_fields s) as (Bx & _).
  apply Forall_map. generalize (inv_pipes s H). apply Forall_impl.
  intros p Hp. apply pipeOk_tick. now apply (pipeOk_bird (bird s)).
Qed.

(** C6: at the end of every frame of a running session no obstacle whose
    right edge [x + width] is left of 0 is in the sequence.  The sequence
    is in ascending [x]; the loop takes a prefix off its front, and what
    it takes is exactly the obstacles that were off the board, however
    many they are. *)
Theorem C6_recycling (s : State) :
  reachable s -> running s = true ->
  Forall (fun p => ~ Pipe.x p + Pipe.width p < 0) (pipes (step s)) /\
  ascending (map (tickPipe (bird (step s))) (pipes s)) /\
  exists gone,
    map (tickPipe (bird (step s))) (pipes s) = gone ++ pipes (step s) /\
    Forall (fun p => Pipe.x p + Pipe.width p < 0) gone.
Proof.
  intros Hreach Hrun. pose proof (reachable_Inv s Hreach) as H.
  destruct (step_running s Hrun) as (Eb & _ & Ep & _).
  rewrite Eb, Ep. set (moved := map (tickPipe (birdAt s)) (pipes s)).
  pose proof (pipeOk_moved s H) as Hok. fold moved in Hok.
  assert (Hasc : ascending moved) by apply ascending_tick, H.
  split; [|split; [exact Hasc|]].
  - pose proof (recycle_clean moved Hasc) as Hclean.
    pose proof (Forall_recycle _ _ Hok) as Hok'.
    apply Forall_forall. intros p Hin.
    rewrite Forall_forall in Hclean, Hok'.
    specialize (Hclean p Hin). rewrite (ok_width _ _ (Hok' p Hin)).
    unfold PIPE_W in *. lra.
  - destruct (recycle_suffix moved) as (gone & E & Hgone).
    exists gone. split; [exact E|].
    rewrite E in Hok. apply Forall_app in Hok as [Hok _].
    apply Forall_forall. intros p Hin.
    rewrite Forall_forall in Hgone, Hok.
    specialize (Hgone p Hin). rewrite (ok_width _ _ (Hok p Hin)).
    unfold PIPE_W in *. lra.
Qed.

Lemma C6_witness :
  running beforeRecycle = true /\
  Forall (fun p => ~ Pipe.x p + Pipe.width p < 0) (pipes (step beforeRecycle)) /\
  (length (pipes beforeRecycle) = 2 /\ length (pipes (step beforeRecycle)) = 0)%nat.
Proof.
  assert (R : running beforeRecycle = true) by (vm_compute; reflexivity).
  assert (L : (length (pipes beforeRecycle) = 2 /\
               length (pipes (step beforeRecycle)) = 0)%nat)
    by (vm_compute; split; reflexivity).
  exact (conj R (conj (proj1 (C6_recycling beforeRecycle
                                reachable_beforeRecycle R)) L)).
Defined.

Lemma existsb_none {A} (f : A -> bool) l :
  (forall a, In a l -> f a = false) -> existsb f l = false.
Proof.
  intros H. apply not_true_iff_false. intros E.
  apply existsb_exists in E as (a & Hin & Ha). rewrite (H a Hin) in Ha.
  discriminate.
Qed.

(** C7: a frame of a running session in which the bird's [y] exceeds the
    board's height less the bird's height ends the session in that
    frame: the game-over flag is set, the spawn interval is cleared, the
    loop stops, and the length of the sequence is the same after any
    events other than a restart.  Nothing tests the top of the board: a
    frame sets the flag only when the ground test or a collision holds,
    and with the bird wholly above the highest place a pipe can start the
    frame leaves the session running. *)
Theorem C7_ground_and_no_ceiling (s : State) (es : list Event) :
  reachable s -> running s = true ->
  Forall (fun e => isRestart e = false) es ->
  let b := bird (step s) in
  (Bird.y b > BOARD_H - BIRD_H ->
     gameOver (step s) = true /\
     placePipesInterval (step s) = false /\
     running (step s) = false /\
     length (pipes (run es (step s))) = length (pipes (step s))) /\
  (gameOver (step s) = true ->
     Bird.y b > BOARD_H - BIRD_H \/
     exists p, In p (pipes s) /\ detectCollision b (tickPipe b p) = true) /\
  (Bird.y b + Bird.height b <= - PIPE_H / 4 - PIPE_H / 2 ->
     gameOver (step s) = false /\ running (step s) = true).
Proof.
  intros Hreach Hrun Hes b. pose proof (reachable_Inv s Hreach) as H.
  destruct (step_running s Hrun) as (Eb & _ & _ & _ & Eg & Er & Ei & _).
  pose proof (running_not_over s H Hrun) as Hg0.
  subst b. rewrite Eb. unfold overAfter in *. rewrite Hg0 in *.
  cbn [orb] in *. repeat split.
  - rewrite Eg. apply Qgtb_true in H0. rewrite H0. apply orb_true_r.
  - rewrite Ei. apply Qgtb_true in H0. rewrite H0, orb_true_r.
    apply andb_false_r.
  - rewrite Er. apply Qgtb_true in H0. now rewrite H0, orb_true_r.
  - assert (Hover : gameOver (step s) = true).
    { rewrite Eg. apply Qgtb_true in H0. rewrite H0. apply orb_true_r. }
    pose proof (reachable_Inv _ (reachable_step s Hreach)) as H'.
    destruct (halted_run es (step s) (Inv_halted _ H' Hover) Hes)
      as (_ & Hp & _).
    now rewrite Hp.
  - intros Hover. rewrite Eg in Hover.
    apply orb_true_iff in Hover as [Hhit|Hground].
    + right. apply existsb_exists in Hhit as (p & Hin & Hp). now exists p.
    + left. now apply Qgtb_true.
  - rewrite Eg. apply orb_false_iff. split.
    + apply existsb_none. intros p Hin. unfold hits.
      apply not_true_iff_false. intros Hhit.
      apply detectCollision_true in Hhit as (_ & _ & _ & Hy).
      pose proof (inv_pipes s H) as Hok. rewrite Forall_forall in Hok.
      pose proof (ok_y _ _ (Hok p Hin)) as Hlow.
      destruct (tickPipe_fields (birdAt s) p) as (_ & _ & Ey & _).
      rewrite Ey in Hy. lra.
    + apply Qgtb_false.
      destruct (birdAt_fields s) as (_ & _ & _ & Bh).
      rewrite Bh, (inv_bird_h s H) in H0. numbers. lra.
  - rewrite Er. apply negb_true_iff, orb_false_iff. split.
    + apply existsb_none. intros p Hin. unfold hits.
      apply not_true_iff_false. intros Hhit.
      apply detectCollision_true in Hhit as (_ & _ & _ & Hy).
      pose proof (inv_pipes s H) as Hok. rewrite Forall_forall in Hok.
      pose proof (ok_y _ _ (Hok p Hin)) as Hlow.
      destruct (tickPipe_fields (birdAt s) p) as (_ & _ & Ey & _).
      rewrite Ey in Hy. lra.
    + apply Qgtb_false.
      destruct (birdAt_fields s) as (_ & _ & _ & Bh).
      rewrite Bh, (inv_bird_h s H) in H0. numbers. lra.
Qed.

Lemma C7_witness :
  (running beforeGround = true /\
   Bird.y (bird (step beforeGround)) > BOARD_H - BIRD_H /\
   gameOver (step beforeGround) = true /\
   placePipesInterval (step beforeGround) = false /\
   length (pipes (run [Tick; SpawnTimer 0.5; IdleFrame; Tick] (step beforeGround)))
     = length (pipes (step beforeGround))) /\
  (running beforeRecycle = true /\
   Bird.y (bird (step beforeRecycle)) + Bird.height (bird (step beforeRecycle))
     <= - PIPE_H / 4 - PIPE_H / 2 /\
   gameOver (step beforeRecycle) = false).
Proof.
  assert (Hes : Forall (fun e => isRestart e = false)
                  [Tick; SpawnTimer 0.5; IdleFrame; Tick])
    by (repeat constructor).
  assert (R1 : running beforeGround = true) by (vm_compute; reflexivity).
  assert (G1 : Bird.y (bird (step beforeGround)) > BOARD_H - BIRD_H)
    by (vm_compute; reflexivity).
  assert (R2 : running beforeRecycle = true) by (vm_compute; reflexivity).
  assert (G2 : Bird.y (bird (step beforeRecycle)) +
               Bird.height (bird (step beforeRecycle))
               <= - PIPE_H / 4 - PIPE_H / 2)
    by (vm_compute; discriminate).
  pose proof (C7_ground_and_no_ceiling beforeGround _
                reachable_beforeGround R1 Hes) as H1.
  pose proof (C7_ground_and_no_ceiling beforeRecycle _
                reachable_beforeRecycle R2 Hes) as H2.
  cbv zeta in H1, H2.
  destruct H1 as (Hground & _ & _). destruct H2 as (_ & _ & Hsky).
  destruct (Hground G1) as (A1 & A2 & _ & A4).
  exact (conj (conj R1 (conj G1 (conj A1 (conj A2 A4))))
              (conj R2 (conj G2 (proj1 (Hsky G2))))).
Defined.

(** C8, as the code has it: once the game-over flag is set nothing is
    spawned (the interval callback does nothing while the flag is set,
    and the frame that set the flag clears the interval).  The frame that
    sets the flag still moves every obstacle and still runs the recycling
    loop.  The loop is not re-armed after that frame: a later frame
    returns the state as it is, and no event other than a restart changes
    the sequence. *)
Theorem C8_game_over_freezes_the_obstacles
  (s : State) (r : Q) (es : list Event) :
  reachable s ->
  Forall (fun e => isRestart e = false) es ->
  (running s = true ->
     pipes (step s) = recycle (map (tickPipe (bird (step s))) (pipes s)) /\
     (forall p, Pipe.x (tickPipe (bird (step s)) p) = Pipe.x p + -2) /\
     (gameOver (step s) = true -> placePipesInterval (step s) = false)) /\
  (gameOver s = true ->
     placePipes r s = s /\
     handle (SpawnTimer r) s = s /\
     step s = s /\
     pipes (run es s) = pipes s).
Proof.
  intros Hreach Hes. pose proof (reachable_Inv s Hreach) as H. split.
  - intros Hrun.
    destruct (step_running s Hrun) as (Eb & _ & Ep & _ & Eg & _ & Ei & _).
    rewrite Eb. repeat split; auto.
    + intros p. apply tickPipe_fields.
    + rewrite Eg, Ei. intros ->. apply andb_false_r.
  - intros Hover. destruct (Inv_halted s H Hover) as (_ & Hr & Hi).
    repeat split.
    + unfold placePipes. now rewrite Hover.
    + cbn [handle]. now rewrite Hi.
    + now apply step_stopped.
    + apply halted_run; auto. now apply Inv_halted.
Qed.

Lemma C8_witness :
  gameOver grounded = true /\
  placePipes 0.5 grounded = grounded /\
  step grounded = grounded /\
  pipes (run [Tick; SpawnTimer 0.5; IdleFrame; Tick] grounded) = pipes grounded.
Proof.
  assert (Hes : Forall (fun e => isRestart e = false)
                  [Tick; SpawnTimer 0.5; IdleFrame; Tick])
    by (repeat constructor).
  assert (G : gameOver grounded = true) by (vm_compute; reflexivity).
  pose proof (C8_game_over_freezes_the_obstacles grounded 0.5 _
                reachable_grounded Hes) as (_ & H).
  destruct (H G) as (A1 & _ & A3 & A4).
  exact (conj G (conj A1 (conj A3 A4))).
Defined.

(** C8, as it is stated, fails: [grounded] is the state after the frame
    in which the bird reached the ground, with the first pair in flight
    at [x = 284].  The next frame leaves both obstacles where they are;
    they are not scrolled to [x = 282]. *)
Lemma C8_counterexample :
  reachable grounded /\
  gameOver grounded = true /\
  (map Pipe.x (pipes grounded) = [284; 284] /\
   map Pipe.x (pipes (handle Tick grounded)) = [284; 284]) /\
  map Pipe.x (pipes (handle Tick grounded))
    <> map Pipe.x (map movePipe (pipes grounded)).
Proof.
  split; [exact reachable_grounded|].
  vm_compute. repeat split; try reflexivity. discriminate.
Qed.

(** C9: in every reachable state the sequence has even length and its
    obstacles at indices [2k] and [2k+1] have the same [x].  A spawn
    appends exactly two obstacles of equal [x]; a frame moves every
    obstacle by the same [-2]; and the recycling loop of a frame removes
    whole pairs only, so what it removes and what it leaves are again
    sequences of pairs. *)
Theorem C9_sequence_of_pairs (s : State) (r : Q) :
  reachable s ->
  Nat.even (length (pipes s)) = true /\
  (forall k u l,
     nth_error (pipes s) (2 * k) = Some u ->
     nth_error (pipes s) (2 * k + 1) = Some l ->
     Pipe.x u = Pipe.x l) /\
  (pipes (spawnPipePair r s) = pipes s ++ [topPipe r; bottomPipe r] /\
   Pipe.x (topPipe r) = Pipe.x (bottomPipe r)) /\
  (forall b p, Pipe.x (tickPipe b p) = Pipe.x p + -2) /\
  (running s = true ->
     exists gone,
       map (tickPipe (bird (step s))) (pipes s) = gone ++ pipes (step s) /\
       Paired gone /\ Nat.even (length gone) = true /\
       Paired (pipes (step s)) /\ Nat.even (length (pipes (step s))) = true).
Proof.
  intros Hreach. pose proof (reachable_Inv s Hreach) as H.
  pose proof (inv_paired s H) as Hp.
  split; [now apply Paired_even|]. split.
  { intros k u l Hu Hl. now apply (Paired_nth _ Hp k u l). }
  split.
  { split; [|reflexivity]. unfold spawnPipePair. fields.
    now rewrite <- app_assoc. }
  split.
  { intros b p. apply tickPipe_fields. }
  intros Hrun. destruct (step_running s Hrun) as (Eb & _ & Ep & _).
  rewrite Eb, Ep.
  pose proof (Paired_tick (birdAt s) _ Hp) as Hmoved.
  destruct (Paired_recycle_split _ Hmoved) as (gone & E & Hgone & _).
  exists gone. pose proof (Paired_recycle _ Hmoved) as Hrest.
  repeat split; auto using Paired_even.
Qed.

Lemma C9_witness :
  Nat.even (length (pipes beforeRecycle)) = true /\
  (exists gone,
     map (tickPipe (bird (step beforeRecycle))) (pipes beforeRecycle)
       = gone ++ pipes (step beforeRecycle) /\
     Paired gone /\ Nat.even (length gone) = true /\
     Paired (pipes (step beforeRecycle)) /\
     Nat.even (length (pipes (step beforeRecycle))) = true).
Proof.
  assert (R : running beforeRecycle = true) by (vm_compute; reflexivity).
  pose proof (C9_sequence_of_pairs beforeRecycle 0.5 reachable_beforeRecycle)
    as (A1 & _ & _ & _ & A5).
  exact (conj A1 (A5 R)).
Defined.

(** C10: in a frame of a running session the bird's [x] and width are
    the constants they were at the start and every obstacle moves
    strictly left.  A set flag stays set, and an obstacle whose flag is
    set when its iteration of the loop reaches the collision test has its
    right edge left of the bird's left edge, so the test is false and the
    iteration leaves the game-over flag as it found it.  An iteration
    that adds to the score sets the flag, so scoring an obstacle and
    colliding with it exclude each other in every frame. *)
Theorem C10_passed_never_collides
  (s : State) (p : Pipe.t) (sc : Q) (go : bool) :
  reachable s -> running s = true -> In p (pipes s) ->
  let a := bird (step s) in
  let q := fst (fst (pipeBody a p sc go)) in
  (Bird.x a = BIRD_X /\ Bird.width a = BIRD_W /\ Bird.x a = Bird.x (bird s)) /\
  Pipe.x q < Pipe.x p /\
  (Pipe.passed p = true -> Pipe.passed q = true) /\
  (Pipe.passed q = true -> Bird.x a > Pipe.x q + Pipe.width q) /\
  (Pipe.passed q = true ->
     detectCollision a q = false /\ snd (pipeBody a p sc go) = go) /\
  (snd (fst (pipeBody a p sc go)) = sc + 0.5 -> Pipe.passed q = true).
Proof.
  intros Hreach Hrun Hin a q. pose proof (reachable_Inv s Hreach) as H.
  destruct (step_running s Hrun) as (Eb & _).
  destruct (birdAt_fields s) as (Bx & _ & Bw & _).
  subst q a. rewrite Eb. set (a := birdAt s) in *.
  rewrite pipeBody_pipe, pipeBody_over. unfold hits.
  pose proof (pipeOk_moved s H) as Hok. fold a in Hok.
  rewrite Forall_forall in Hok.
  pose proof (Hok _ (in_map (tickPipe a) _ _ Hin)) as [_ _ _ _ Hpast].
  destruct (tickPipe_fields a p) as (_ & Ex & _ & _ & _ & Epass).
  assert (Hsafe : Pipe.passed (tickPipe a p) = true ->
                  detectCollision a (tickPipe a p) = false).
  { intros Hq. apply not_true_iff_false. intros Hhit.
    apply detectCollision_true in Hhit as (Hx & _).
    specialize (Hpast Hq). lra. }
  split; [|split; [|split; [|split; [|split]]]].
  - rewrite Bx, Bw. repeat split; apply H.
  - rewrite Ex. lra.
  - intros Hp. now rewrite Epass, Hp.
  - exact Hpast.
  - intros Hq. rewrite (Hsafe Hq). split; [reflexivity | apply orb_false_r].
  - intros Hg. unfold tickPipe.
    destruct (scores a (movePipe p)) eqn:E; [reflexivity|].
    rewrite (pipeBody_unscored a p sc go E) in Hg. cbn [snd] in Hg.
    exfalso. assert (Hq : sc == sc + 0.5) by (rewrite <- Hg; reflexivity).
    lra.
Qed.

Lemma C10_witness :
  running beforeScore = true /\
  exists p,
    In p (pipes beforeScore) /\
    Pipe.passed (fst (fst (pipeBody (bird (step beforeScore)) p 0 false))) = true /\
    detectCollision (bird (step beforeScore))
      (fst (fst (pipeBody (bird (step beforeScore)) p 0 false))) = false /\
    snd (pipeBody (bird (step beforeScore)) p 0 false) = false.
Proof.
  assert (R : running beforeScore = true) by (vm_compute; reflexivity).
  assert (N : nth_error (pipes beforeScore) 0 <> None) by (vm_compute; discriminate).
  assert (G : match nth_error (pipes beforeScore) 0 with
              | Some p =>
                  Pipe.passed
                    (fst (fst (pipeBody (bird (step beforeScore)) p 0 false)))
                  = true
              | None => False
              end) by (vm_compute; reflexivity).
  destruct (nth_error (pipes beforeScore) 0) as [p|] eqn:E; [|now elim N].
  assert (Hin : In p (pipes beforeScore)) by exact (nth_error_In _ _ E).
  pose proof (C10_passed_never_collides beforeScore p 0 false
                reachable_beforeScore R Hin) as H.
  cbv zeta in H. destruct H as (_ & _ & _ & _ & Hsafe & _).
  destruct (Hsafe G) as (S1 & S2).
  exact (conj R (ex_intro _ p (conj Hin (conj G (conj S1 S2))))).
Defined.

(** ** Further properties of the code *)

Lemma step_static s :
  loaded (step s) = loaded s /\ checks (step s) = checks s.
Proof.
  unfold step. destruct (running s); cbn [negb]; [|auto].
  set (s1 := physics (animate FRAME_TICK_RATE s)).
  assert (E : loaded s1 = loaded s /\ checks s1 = checks s).
  { unfold s1, physics, animate. destruct (_ <=? _)%nat; auto. }
  destruct (pipeLoop (bird s1) (pipes s1) (score s1) (gameOver s1))
    as [[ps sc] go].
  fields. destruct (Qgtb _ _); fields; [exact E|].
  destruct go; fields; exact E.
Qed.

Lemma handle_static e s :
  isAssetCallback e = false ->
  loaded (handle e s) = loaded s /\ checks (handle e s) = checks s.
Proof.
  destruct e; try discriminate; intros _; cbn [handle].
  - apply step_static.
  - unfold idleLoop, animate. destruct (_ <=? _)%nat; auto.
  - unfold flap. destruct (negb (running s)).
    + destruct (showMenu s && loaded s); auto.
    + destruct (gameOver s); auto.
  - unfold startButton. destruct (showMenu s); auto.
    destruct (negb (loaded s)); auto.
  - destruct (placePipesInterval s); auto.
    unfold placePipes. destruct (negb (gameOver s)); auto.
Qed.

Lemma quorum_handle e s :
  loaded s = (3 <? checks s)%nat ->
  loaded (handle e s) = (3 <? checks (handle e s))%nat /\
  checks (handle e s) =
    ((if isAssetCallback e then 1 else 0) + checks s)%nat.
Proof.
  intros H. destruct (isAssetCallback e) eqn:E.
  - destruct e; try discriminate. cbn [handle]. unfold checkLoaded. fields.
    destruct (negb (loaded s) && (3 <? S (checks s))%nat) eqn:E1; fields;
      (split; [|reflexivity]).
    + apply andb_true_iff in E1 as [_ E1]. now rewrite E1.
    + rewrite H. apply andb_false_iff in E1 as [E1|E1].
      * apply negb_false_iff in E1. rewrite H in E1. rewrite E1.
        apply Nat.ltb_lt in E1. symmetry. apply Nat.ltb_lt. lia.
      * rewrite E1. apply Nat.ltb_ge in E1. apply Nat.ltb_ge. lia.
  - destruct (handle_static e s E) as (El & Ec). rewrite El, Ec. auto.
Qed.

Lemma quorum_run es : forall s,
  loaded s = (3 <? checks s)%nat ->
  loaded (run es s) = (3 <? checks (run es s))%nat /\
  checks (run es s) = (assetCallbacks es + checks s)%nat.
Proof.
  induction es as [|e es IH]; intros s H; cbn [run].
  - auto.
  - destruct (quorum_handle e s H) as (H' & Ec).
    destruct (IH _ H') as (Hl & Hc). split; [exact Hl|].
    rewrite Hc, Ec. unfold assetCallbacks. cbn [filter].
    destruct (isAssetCallback e); cbn [length]; lia.
Qed.

(** A session is on (running or over) only with the assets loaded;
    this needs nothing of the draws. *)
Lemma started_loaded_handle e s :
  (running s = true \/ gameOver s = true -> loaded s = true) ->
  running (handle e s) = true \/ gameOver (handle e s) = true ->
  loaded (handle e s) = true.
Proof.
  intros H. destruct e; cbn [handle].
  - destruct (running s) eqn:Er.
    + intros _. rewrite (proj1 (step_static s)). auto.
    + rewrite step_stopped by exact Er. rewrite Er. exact H.
  - unfold idleLoop, animate. destruct (_ <=? _)%nat; exact H.
  - unfold flap. destruct (running s) eqn:Er; cbn [negb].
    + destruct (gameOver s) eqn:Eg; intros _; [|fields]; apply H; auto.
    + destruct (showMenu s); cbn [andb]; [|rewrite Er; exact H].
      destruct (loaded s) eqn:El;
        [intros _; exact El | rewrite Er, ?El; exact H].
  - unfold startButton. destruct (showMenu s); [|exact H].
    destruct (loaded s) eqn:El; cbn [negb];
      [intros _; exact El | rewrite ?El; exact H].
  - destruct (placePipesInterval s); [|exact H].
    unfold placePipes. destruct (negb (gameOver s)); exact H.
  - unfold checkLoaded. fields.
    destruct (negb (loaded s) && _) eqn:E; fields; [reflexivity | exact H].
Qed.

Lemma started_loaded_run es : forall s,
  (running s = true \/ gameOver s = true -> loaded s = true) ->
  running (run es s) = true \/ gameOver (run es s) = true ->
  loaded (run es s) = true.
Proof.
  induction es as [|e es IH]; intros s H; cbn [run]; [exact H|].
  apply IH. now apply started_loaded_handle.
Qed.

(** X1: the readiness quorum.  After any sequence of events from the
    first render the assets count as loaded exactly when more than three
    asset callbacks have run, whatever else has happened in between; and
    a session can be running or over only after at least four of them. *)
Theorem X1_readiness_quorum (es : list Event) :
  loaded (run es initialState) = (3 <? assetCallbacks es)%nat /\
  checks (run es initialState) = assetCallbacks es /\
  (running (run es initialState) = true \/
   gameOver (run es initialState) = true ->
   (4 <= assetCallbacks es)%nat).
Proof.
  destruct (quorum_run es initialState eq_refl) as (Hl & Hc).
  assert (Ec : checks (run es initialState) = assetCallbacks es).
  { rewrite Hc. cbn [checks initialState]. lia. }
  rewrite Ec in Hl. repeat split; auto.
  intros Hon.
  assert (L : loaded (run es initialState) = true).
  { apply started_loaded_run; auto. cbn. intros [F|F]; discriminate. }
  rewrite Hl in L. apply Nat.ltb_lt in L. lia.
Qed.

Lemma never_started s :
  reachable s -> running s = false -> gameOver s = false ->
  pipes s = [] /\ score s = 0 /\ velocityY s = 0 /\
  bird s = Bird.mk BIRD_X BIRD_Y BIRD_W BIRD_H.
Proof.
  induction 1 as [|e s Hs IH Hv]; [repeat split|].
  pose proof (reachable_Inv s Hs) as H.
  destruct e; cbn [handle].
  - destruct (running s) eqn:Er.
    + destruct (step_running s Er) as (_ & _ & _ & _ & Eg & Er' & _).
      rewrite Eg, Er'. destruct (overAfter s); discriminate.
    + rewrite step_stopped by exact Er. rewrite Er. exact IH.
  - unfold idleLoop, animate. destruct (_ <=? _)%nat; exact IH.
  - unfold flap. destruct (running s) eqn:Er; cbn [negb].
    + destruct (gameOver s).
      * intros F. destruct (diff_true_false F).
      * fields. rewrite Er. discriminate.
    + destruct (showMenu s && loaded s).
      * intros F. destruct (diff_true_false F).
      * rewrite Er. exact IH.
  - unfold startButton. destruct (showMenu s); [|exact IH].
    destruct (negb (loaded s)); [exact IH|].
    intros F. destruct (diff_true_false F).
  - rewrite (inv_timer s H).
    destruct (running s) eqn:Er; [|rewrite Er; exact IH].
    unfold placePipes, spawnPipePair.
    destruct (negb (gameOver s)); fields; rewrite Er; discriminate.
  - unfold checkLoaded. fields. destruct (negb (loaded s) && _); exact IH.
Qed.

(** X2: the spawn interval and the session.  In every reachable state:
    once the game-over flag is set no interval is installed, so an
    installed interval means the game is not over; both mean that the
    assets are loaded; and with the flag unset and no interval installed
    no session has been started yet: no obstacle, score and velocity 0,
    the bird at its initial place. *)
Theorem X2_interval_and_session (s : State) :
  reachable s ->
  (gameOver s = true -> placePipesInterval s = false /\ loaded s = true) /\
  (placePipesInterval s = true -> gameOver s = false /\ loaded s = true) /\
  (gameOver s = false -> placePipesInterval s = false ->
     pipes s = [] /\ score s = 0 /\ velocityY s = 0 /\
     bird s = Bird.mk BIRD_X BIRD_Y BIRD_W BIRD_H).
Proof.
  intros Hreach. pose proof (reachable_Inv s Hreach) as H.
  split; [|split].
  - intros Eg. split; [|apply H; auto].
    rewrite (inv_timer s H). now apply H.
  - intros Ei. rewrite (inv_timer s H) in Ei. split; [|apply H; auto].
    now apply running_not_over.
  - intros Eg Ei. rewrite (inv_timer s H) in Ei.
    now apply never_started.
Qed.

Lemma X2_witness :
  (gameOver initialState = false /\ placePipesInterval initialState = false /\
   pipes initialState = []) /\
  (placePipesInterval beforeGround = true /\ gameOver beforeGround = false) /\
  (gameOver grounded = true /\ placePipesInterval grounded = false).
Proof.
  assert (A1 : gameOver initialState = false) by reflexivity.
  assert (A2 : placePipesInterval initialState = false) by reflexivity.
  assert (B1 : placePipesInterval beforeGround = true)
    by (vm_compute; reflexivity).
  assert (C1 : gameOver grounded = true) by (vm_compute; reflexivity).
  destruct (X2_interval_and_session initialState reachable_init)
    as (_ & _ & F1).
  destruct (X2_interval_and_session beforeGround reachable_beforeGround)
    as (_ & F2 & _).
  destruct (X2_interval_and_session grounded reachable_grounded)
    as (F3 & _).
  exact (conj (conj A1 (conj A2 (proj1 (F1 A1 A2))))
          (conj (conj B1 (proj1 (F2 B1))) (conj C1 (proj1 (F3 C1))))).
Defined.

(** X9: whenever the session is not running the start button and a tap
    do the same: both start a session when the assets are loaded and
    both do nothing when they are not. *)
Theorem X9_button_is_a_tap (s : State) (r : Q) :
  reachable s -> running s = false ->
  startButton r s = flap r s /\
  (loaded s = false -> startButton r s = s) /\
  (loaded s = true -> startButton r s = startGame r s).
Proof.
  intros Hreach Er. pose proof (reachable_Inv s Hreach) as H.
  unfold startButton, flap. rewrite (inv_menu s H), Er. cbn [negb andb].
  destruct (loaded s); cbn [negb]; repeat split; auto; discriminate.
Qed.

Lemma X9_witness :
  running grounded = false /\ startButton 0.5 grounded = flap 0.5 grounded.
Proof.
  assert (R : running grounded = false) by (vm_compute; reflexivity).
  exact (conj R (proj1 (X9_button_is_a_tap grounded 0.5 reachable_grounded R))).
Defined.

Lemma animate_bound rate s :
  (0 < rate)%nat -> (frameIndex s < EXPECTED_FRAMES)%nat ->
  (frameIndex (animate rate s) < EXPECTED_FRAMES)%nat /\
  (frameTick (animate rate s) < rate)%nat.
Proof.
  intros Hr Hi. unfold animate. fields.
  destruct (rate <=? S (frameTick s))%nat eqn:E; fields.
  - split; [|exact Hr]. apply Nat.mod_upper_bound. discriminate.
  - split; [exact Hi|]. apply Nat.leb_gt in E. exact E.
Qed.

Lemma step_frames s :
  running s = true ->
  frameIndex (step s) = frameIndex (animate FRAME_TICK_RATE s) /\
  frameTick (step s) = frameTick (animate FRAME_TICK_RATE s).
Proof.
  intros Er. unfold step. rewrite Er. cbn [negb].
  set (s0 := animate FRAME_TICK_RATE s).
  assert (E : frameIndex (physics s0) = frameIndex s0 /\
              frameTick (physics s0) = frameTick s0) by (split; reflexivity).
  destruct (pipeLoop (bird (physics s0)) (pipes (physics s0))
              (score (physics s0)) (gameOver (physics s0))) as [[ps sc] go].
  fields. destruct (Qgtb _ _); fields; [exact E|].
  destruct go; fields; exact E.
Qed.

Lemma frames_bound_handle e s :
  (frameIndex s < EXPECTED_FRAMES)%nat /\ (frameTick s < 2 * FRAME_TICK_RATE)%nat ->
  (frameIndex (handle e s) < EXPECTED_FRAMES)%nat /\
  (frameTick (handle e s) < 2 * FRAME_TICK_RATE)%nat.
Proof.
  intros [Hi Ht]. destruct e; cbn [handle].
  - destruct (running s) eqn:Er; [|now rewrite step_stopped].
    destruct (step_frames s Er) as (Ei & Et). rewrite Ei, Et.
    destruct (animate_bound FRAME_TICK_RATE s) as (A & B); auto.
    { unfold FRAME_TICK_RATE. lia. }
    split; [exact A|]. unfold FRAME_TICK_RATE in *. lia.
  - unfold idleLoop. apply animate_bound; auto.
    unfold FRAME_TICK_RATE. lia.
  - unfold flap. destruct (negb (running s)).
    + destruct (showMenu s && loaded s); auto.
    + destruct (gameOver s); auto.
  - unfold startButton. destruct (showMenu s); auto.
    destruct (negb (loaded s)); auto.
  - destruct (placePipesInterval s); auto.
    unfold placePipes. destruct (negb (gameOver s)); auto.
  - unfold checkLoaded. fields. destruct (negb (loaded s) && _); auto.
Qed.

(** X10: the sprite animation counters stay in range.  After any
    sequence of events the frame index is a valid index into the four
    sprite frames and the tick counter is below twice the tick rate; a
    frame of a running session leaves the tick counter below the tick
    rate itself, whatever the idle loop had made of it. *)
Theorem X10_animation_counters_in_range (es : list Event) :
  (frameIndex (run es initialState) < EXPECTED_FRAMES)%nat /\
  (frameTick (run es initialState) < 2 * FRAME_TICK_RATE)%nat /\
  (running (run es initialState) = true ->
   frameTick (step (run es initialState)) < FRAME_TICK_RATE)%nat.
Proof.
  assert (G : forall es s,
    (frameIndex s < EXPECTED_FRAMES)%nat /\
    (frameTick s < 2 * FRAME_TICK_RATE)%nat ->
    (frameIndex (run es s) < EXPECTED_FRAMES)%nat /\
    (frameTick (run es s) < 2 * FRAME_TICK_RATE)%nat).
  { clear es. induction es as [|e es IH]; intros s Hs; cbn [run]; auto.
    apply IH. now apply frames_bound_handle. }
  destruct (G es initialState) as (A & B).
  { cbn. unfold EXPECTED_FRAMES, FRAME_TICK_RATE. lia. }
  repeat split; auto. intros Er.
  rewrite (proj2 (step_frames _ Er)). apply animate_bound; auto.
  unfold FRAME_TICK_RATE. lia.
Qed.

Lemma gain_pair b u l :
  Pipe.x u = Pipe.x l -> Pipe.width u = Pipe.width l ->
  Pipe.passed u = Pipe.passed l -> gain b u = gain b l.
Proof.
  intros Ex Ew Ep. unfold gain, scores, movePipe. fields.
  now rewrite Ex, Ew, Ep.
Qed.

Lemma totalGain_whole b ps :
  Paired ps -> exists k : Z, (0 <= k)%Z /\ totalGain b ps == inject_Z k.
Proof.
  induction 1 as [|u l rest Hx Hy Hw Hh Hp _ (k & Hk & IH)].
  - exists 0%Z. split; [lia | reflexivity].
  - cbn [totalGain]. rewrite (gain_pair b u l Hx Hw Hp).
    unfold gain. destruct (scores b (movePipe l)).
    + exists (1 + k)%Z. split; [lia|]. rewrite inject_Z_plus.
      change (inject_Z 1) with 1. lra.
    + exists k. split; [lia | lra].
Qed.

Lemma score_whole s :
  reachable s -> exists k : Z, (0 <= k)%Z /\ score s == inject_Z k.
Proof.
  induction 1 as [|e s Hs (k & Hk & IH) Hv].
  - exists 0%Z. split; [lia | reflexivity].
  - pose proof (reachable_Inv s Hs) as H.
    assert (Zero : exists k0 : Z, (0 <= k0)%Z /\ 0 == inject_Z k0).
    { exists 0%Z. split; [lia | reflexivity]. }
    destruct e; cbn [handle].
    + destruct (running s) eqn:Er.
      * destruct (step_running s Er) as (_ & _ & _ & Es & _).
        destruct (totalGain_whole (birdAt s) _ (inv_paired s H))
          as (g & Hg & Eg).
        exists (k + g)%Z. split; [lia|].
        rewrite Es, IH, Eg, inject_Z_plus. reflexivity.
      * rewrite step_stopped by exact Er. now exists k.
    + unfold idleLoop, animate. destruct (_ <=? _)%nat; now exists k.
    + unfold flap. destruct (negb (running s)).
      * destruct (showMenu s && loaded s); [exact Zero | now exists k].
      * destruct (gameOver s); [exact Zero | now exists k].
    + unfold startButton. destruct (showMenu s); [|now exists k].
      destruct (negb (loaded s)); [now exists k | exact Zero].
    + destruct (placePipesInterval s); [|now exists k].
      unfold placePipes. destruct (negb (gameOver s)); now exists k.
    + unfold checkLoaded. fields.
      destruct (negb (loaded s) && _); now exists k.
Qed.

(** X3: the score is a whole number.  The two members of a pair are
    crossed in the same frame, so in every reachable state the score,
    which grows by halves, is a non-negative integer, and the floor that
    the frame draws is the score itself. *)
Theorem X3_score_is_whole (s : State) :
  reachable s ->
  (0 <= displayedScore s)%Z /\ inject_Z (displayedScore s) == score s.
Proof.
  intros Hreach. destruct (score_whole s Hreach) as (k & Hk & E).
  assert (F : displayedScore s = k).
  { unfold displayedScore. rewrite (Qfloor_comp _ _ E). apply Qfloor_Z. }
  rewrite F. split; [exact Hk | symmetry; exact E].
Qed.

Lemma X3_witness :
  displayedScore (step beforeScore) = 1%Z /\
  inject_Z (displayedScore (step beforeScore)) == score (step beforeScore).
Proof.
  assert (D : displayedScore (step beforeScore) = 1%Z) by (vm_compute; reflexivity).
  exact (conj D (proj2 (X3_score_is_whole (step beforeScore)
                          (reachable_step _ reachable_beforeScore)))).
Defined.

Lemma placed s :
  reachable s ->
  Forall (fun p => - PIPE_W <= Pipe.x p /\
                   Pipe.y p <= - PIPE_H / 4 + PIPE_H + openingSpace) (pipes s).
Proof.
  assert (Top : forall r, 0 <= r -> r < 1 ->
            - PIPE_W <= Pipe.x (topPipe r) /\
            Pipe.y (topPipe r) <= - PIPE_H / 4 + PIPE_H + openingSpace).
  { intros r H0 H1. destruct (randomPipeY_range r H0 H1) as (_ & Hhi).
    unfold topPipe. fields. numbers. split; lra. }
  assert (Bot : forall r, 0 <= r -> r < 1 ->
            - PIPE_W <= Pipe.x (bottomPipe r) /\
            Pipe.y (bottomPipe r) <= - PIPE_H / 4 + PIPE_H + openingSpace).
  { intros r H0 H1. destruct (randomPipeY_range r H0 H1) as (_ & Hhi).
    unfold bottomPipe. fields. numbers. split; lra. }
  assert (Start : forall r t, 0 <= r -> r < 1 ->
            Forall (fun p => - PIPE_W <= Pipe.x p /\
              Pipe.y p <= - PIPE_H / 4 + PIPE_H + openingSpace)
              (pipes (startGame r t))).
  { intros r t H0 H1. rewrite (proj1 (proj2 (proj2 (startGame_fields r t)))).
    repeat constructor; try apply Top; try apply Bot; auto. }
  induction 1 as [|e s Hs IH Hv]; [constructor|].
  pose proof (reachable_Inv s Hs) as H.
  destruct e; cbn [handle validEvent] in *.
  - destruct (running s) eqn:Er; [|now rewrite step_stopped].
    destruct (step_running s Er) as (_ & _ & Ep & _). rewrite Ep.
    set (moved := map (tickPipe (birdAt s)) (pipes s)).
    assert (Hasc : ascending moved) by apply ascending_tick, H.
    pose proof (recycle_clean moved Hasc) as Hx.
    assert (Hy : Forall (fun p => Pipe.y p
                  <= - PIPE_H / 4 + PIPE_H + openingSpace) (recycle moved)).
    { apply Forall_recycle, Forall_map. revert IH. apply Forall_impl.
      intros p [_ Hp]. destruct (tickPipe_fields (birdAt s) p)
        as (_ & _ & Ey & _). now rewrite Ey. }
    rewrite Forall_forall in *. intros p Hin. split; auto.
  - unfold idleLoop, animate. destruct (_ <=? _)%nat; exact IH.
  - destruct Hv as [H0 H1]. unfold flap. destruct (negb (running s)).
    + destruct (showMenu s && loaded s); auto.
    + destruct (gameOver s); auto.
  - destruct Hv as [H0 H1]. unfold startButton.
    destruct (showMenu s); auto. destruct (negb (loaded s)); auto.
  - destruct Hv as [H0 H1]. destruct (placePipesInterval s); auto.
    unfold placePipes, spawnPipePair.
    destruct (negb (gameOver s)); auto. fields.
    repeat (apply Forall_app; split); auto;
      repeat constructor; try apply Top; try apply Bot; auto.
  - unfold checkLoaded. fields. destruct (negb (loaded s) && _); exact IH.
Qed.

(** X4: in every reachable state every obstacle of the sequence has the
    fixed pipe size and lies, horizontally, between the recycling bound
    and the spawn position: its right edge is not left of the board and
    its left edge is not right of it. *)
Theorem X4_obstacles_on_the_board (s : State) (p : Pipe.t) :
  reachable s -> In p (pipes s) ->
  Pipe.width p = PIPE_W /\ Pipe.height p = PIPE_H /\
  0 <= Pipe.x p + Pipe.width p /\ Pipe.x p <= BOARD_W.
Proof.
  intros Hreach Hin. pose proof (reachable_Inv s Hreach) as H.
  pose proof (inv_pipes s H) as Hok. pose proof (placed s Hreach) as Hpl.
  rewrite Forall_forall in Hok, Hpl.
  destruct (Hok p Hin) as [Hw Hh Hx _ _]. destruct (Hpl p Hin) as [Hlo _].
  repeat split; auto. rewrite Hw. unfold PIPE_W in *. lra.
Qed.

Lemma X4_witness :
  exists p, In p (pipes beforeRecycle) /\
    Pipe.width p = PIPE_W /\ 0 <= Pipe.x p + Pipe.width p /\
    Pipe.x p + Pipe.width p == 0.
Proof.
  assert (N : nth_error (pipes beforeRecycle) 0 <> None)
    by (vm_compute; discriminate).
  assert (G : match nth_error (pipes beforeRecycle) 0 with
              | Some p => Pipe.x p + Pipe.width p == 0
              | None => False
              end) by (vm_compute; reflexivity).
  destruct (nth_error (pipes beforeRecycle) 0) as [p|] eqn:E; [|now elim N].
  assert (Hin : In p (pipes beforeRecycle)) by exact (nth_error_In _ _ E).
  destruct (X4_obstacles_on_the_board beforeRecycle p
              reachable_beforeRecycle Hin) as (A & _ & B & _).
  exact (ex_intro _ p (conj Hin (conj A (conj B G)))).
Defined.

Lemma detectCollision_false a b :
  detectCollision a b = false <->
  ~ (Bird.x a < Pipe.x b + Pipe.width b /\
     Bird.x a + Bird.width a > Pipe.x b /\
     Bird.y a < Pipe.y b + Pipe.height b /\
     Bird.y a + Bird.height a > Pipe.y b).
Proof.
  rewrite <- detectCollision_true. symmetry. apply not_true_iff_false.
Qed.

(** X8: where a pair can be passed.  For the upper pipe [u] and the
    lower pipe [l] of a pair in a reachable state, and any rectangle [a]
    for the bird: if [a] is vertically within the opening (touching its
    edges included) it collides with neither pipe, and then it is on the
    board and above the ground line; if [a] is wholly above the top of
    the upper pipe it collides with neither pipe either; and in every
    other case in which [a] overlaps the pair horizontally and is not
    below the board, it collides with one of the two. *)
Theorem X8_opening (s : State) (k : nat) (u l : Pipe.t) (a : Bird.t) :
  reachable s ->
  nth_error (pipes s) (2 * k) = Some u ->
  nth_error (pipes s) (2 * k + 1) = Some l ->
  (inOpening a u l ->
     detectCollision a u = false /\ detectCollision a l = false /\
     0 < Bird.y a /\
     (Bird.height a = BIRD_H -> ~ Bird.y a > BOARD_H - BIRD_H)) /\
  (Bird.y a + Bird.height a <= Pipe.y u ->
     detectCollision a u = false /\ detectCollision a l = false) /\
  (overlapsX a u -> Bird.y a + Bird.height a > Pipe.y u ->
     Bird.y a <= BOARD_H -> ~ inOpening a u l ->
     detectCollision a u = true \/ detectCollision a l = true).
Proof.
  intros Hreach Hu Hl. pose proof (reachable_Inv s Hreach) as H.
  destruct (Paired_nth _ (inv_paired s H) k u l Hu Hl)
    as (Ex & Ey & Ew & Eh & _).
  pose proof (inv_pipes s H) as Hok. pose proof (placed s Hreach) as Hpl.
  rewrite Forall_forall in Hok, Hpl.
  pose proof (nth_error_In _ _ Hu) as Hinu.
  pose proof (nth_error_In _ _ Hl) as Hinl.
  destruct (Hok u Hinu) as [_ _ _ Hyu _].
  destruct (Hok l Hinl) as [_ Ehl _ _ _].
  destruct (Hpl l Hinl) as [_ Hyl].
  unfold inOpening, overlapsX. rewrite Eh.
  split; [|split].
  - intros [Hin1 Hin2]. split; [|split; [|split]].
    + apply detectCollision_false. intros (_ & _ & Hc & _).
      rewrite Eh in Hc. lra.
    + apply detectCollision_false. intros (_ & _ & _ & Hc). lra.
    + numbers. lra.
    + intros Ea. rewrite Ea in Hin2. numbers. lra.
  - intros Hover. split.
    + apply detectCollision_false. intros (_ & _ & _ & Hc). lra.
    + apply detectCollision_false. intros (_ & _ & _ & Hc).
      rewrite Ey in Hc. numbers. lra.
  - intros [Hx1 Hx2] Hnot_over Hboard Hnot_in.
    destruct (Qlt_le_dec (Bird.y a) (Pipe.y u + PIPE_H)) as [Hlow|Hhigh].
    + left. apply detectCollision_true. rewrite Eh. auto.
    + right. apply detectCollision_true. rewrite <- Ex, <- Ew, Ehl.
      repeat split; auto.
      * rewrite Ey. numbers. lra.
      * destruct (Qlt_le_dec (Pipe.y l) (Bird.y a + Bird.height a))
          as [Hc|Hc]; [exact Hc|]. elim Hnot_in. split; assumption.
Qed.

Lemma X8_witness :
  exists u l,
    nth_error (pipes started) (2 * 0) = Some u /\
    nth_error (pipes started) (2 * 0 + 1) = Some l /\
    inOpening (Bird.mk BIRD_X 400 BIRD_W BIRD_H) u l /\
    detectCollision (Bird.mk BIRD_X 400 BIRD_W BIRD_H) u = false /\
    detectCollision (Bird.mk BIRD_X 400 BIRD_W BIRD_H) l = false.
Proof.
  assert (N0 : nth_error (pipes started) (2 * 0) <> None)
    by (vm_compute; discriminate).
  assert (N1 : nth_error (pipes started) (2 * 0 + 1) <> None)
    by (vm_compute; discriminate).
  assert (G : match nth_error (pipes started) (2 * 0),
                    nth_error (pipes started) (2 * 0 + 1) with
              | Some u, Some l => inOpening (Bird.mk BIRD_X 400 BIRD_W BIRD_H) u l
              | _, _ => False
              end) by (vm_compute; split; discriminate).
  destruct (nth_error (pipes started) (2 * 0)) as [u|] eqn:Eu; [|now elim N0].
  destruct (nth_error (pipes started) (2 * 0 + 1)) as [l|] eqn:El;
    [|now elim N1].
  destruct (X8_opening started 0 u l (Bird.mk BIRD_X 400 BIRD_W BIRD_H)
              reachable_started Eu El) as (Hsafe & _ & _).
  destruct (Hsafe G) as (A & B & _).
  exact (ex_intro _ u (ex_intro _ l (conj eq_refl (conj eq_refl
           (conj G (conj A B)))))).
Defined.

Lemma of_nat_Q_le (a : Z) (n : nat) :
  (a <= Z.of_nat n)%Z -> inject_Z a <= inject_Z (Z.of_nat n).
Proof. intros H. now rewrite <- Zle_Qle. Qed.

Lemma of_nat_Q_ge (a : Z) (n : nat) :
  (Z.of_nat n <= a)%Z -> inject_Z (Z.of_nat n) <= inject_Z a.
Proof. intros H. now rewrite <- Zle_Qle. Qed.

(** X5: when an obstacle is scored and when it leaves.  An obstacle
    spawned at the board's right edge is, [n] frames later, [2n] further
    left; its flag is set, and its half point counted, from frame 190 on
    and not before, and the recycling test holds of it from frame 213
    on and not before. *)
Theorem X5_scored_at_190_recycled_at_213
  (b : Bird.t) (p : Pipe.t) (n : nat) :
  Bird.x b = BIRD_X -> Pipe.x p = PIPE_X -> Pipe.width p = PIPE_W ->
  Pipe.passed p = false ->
  let q := fst (followPipe b n p) in
  Pipe.x q == PIPE_X - 2 * inject_Z (Z.of_nat n) /\
  Pipe.passed q = (190 <=? n)%nat /\
  snd (followPipe b n p) == (if (190 <=? n)%nat then 0.5 else 0) /\
  Qltb (Pipe.x q) (- PIPE_W) = (213 <=? n)%nat.
Proof.
  intros Eb Ex Ew Ep q.
  destruct (followPipe_spec b p n) as (Hx & Hw & _ & _ & Hg).
  cbv zeta in Hx, Hw, Hg. fold q in Hx, Hw, Hg.
  rewrite Ex in Hx. rewrite Ep in Hg. rewrite Ew in Hw.
  assert (Hflag : Pipe.passed q = (190 <=? n)%nat).
  { destruct n as [|m].
    - subst q. cbn [followPipe fst]. rewrite Ep. reflexivity.
    - pose proof (followPipe_flag b p m Ep) as Hf. cbv zeta in Hf.
      fold q in Hf. rewrite Hf, Hw, Eb.
      destruct (190 <=? S m)%nat eqn:E.
      + apply Nat.leb_le in E. apply Qgtb_true.
        assert (Hz : inject_Z 190 <= inject_Z (Z.of_nat (S m)))
          by (apply of_nat_Q_le; lia).
        change (inject_Z 190) with 190 in Hz. rewrite Hx. numbers. lra.
      + apply Nat.leb_gt in E. apply Qgtb_false.
        assert (Hz : inject_Z (Z.of_nat (S m)) <= inject_Z 189)
          by (apply of_nat_Q_ge; lia).
        change (inject_Z 189) with 189 in Hz. rewrite Hx. numbers. lra. }
  split; [exact Hx|]. split; [exact Hflag|]. split.
  - rewrite Hg, Hflag. reflexivity.
  - destruct (213 <=? n)%nat eqn:E.
    + apply Nat.leb_le in E. apply Qltb_true.
      assert (Hz : inject_Z 213 <= inject_Z (Z.of_nat n))
        by (apply of_nat_Q_le; lia).
      change (inject_Z 213) with 213 in Hz. rewrite Hx. numbers. lra.
    + apply Nat.leb_gt in E. apply Qltb_false.
      assert (Hz : inject_Z (Z.of_nat n) <= inject_Z 212)
        by (apply of_nat_Q_ge; lia).
      change (inject_Z 212) with 212 in Hz. rewrite Hx. numbers. lra.
Qed.

Lemma X5_witness :
  Pipe.passed (fst (followPipe (bird started) 189 (topPipe 0))) = false /\
  Pipe.passed (fst (followPipe (bird started) 190 (topPipe 0))) = true /\
  Qltb (Pipe.x (fst (followPipe (bird started) 212 (topPipe 0)))) (- PIPE_W)
    = false /\
  Qltb (Pipe.x (fst (followPipe (bird started) 213 (topPipe 0)))) (- PIPE_W)
    = true.
Proof.
  pose proof (fun n => X5_scored_at_190_recycled_at_213 (bird started)
                (topPipe 0) n eq_refl eq_refl eq_refl eq_refl) as H.
  cbv zeta in H.
  destruct (H 189%nat) as (_ & A & _). destruct (H 190%nat) as (_ & B & _).
  destruct (H 212%nat) as (_ & _ & _ & C).
  destruct (H 213%nat) as (_ & _ & _ & D).
  exact (conj A (conj B (conj C D))).
Defined.

Lemma sameGame_animate rate s : sameGame (animate rate s) s.
Proof.
  unfold animate, sameGame. destruct (_ <=? _)%nat; fields; repeat split.
Qed.

Lemma sameGame_step s t : sameGame s t -> sameGame (step s) (step t).
Proof.
  intros (Eb & Ev & Ep & Es & Eg & Ei & El & Er & Em & Ec).
  unfold step. rewrite <- Er. destruct (running s) eqn:Hr; cbn [negb].
  2: { unfold sameGame. rewrite Hr. repeat split; auto. }
  destruct (sameGame_animate FRAME_TICK_RATE s)
    as (Ab & Av & Ap & As & Ag & Ai & Al & Ar & Am & Ac).
  destruct (sameGame_animate FRAME_TICK_RATE t)
    as (Bb & Bv & Bp & Bs & Bg & Bi & Bl & Br & Bm & Bc).
  set (s0 := animate FRAME_TICK_RATE s) in *.
  set (t0 := animate FRAME_TICK_RATE t) in *.
  assert (Hb : bird (physics s0) = bird (physics t0)).
  { unfold physics. fields. congruence. }
  assert (Hp : pipes (physics s0) = pipes (physics t0))
    by (unfold physics; fields; congruence).
  assert (Hs : score (physics s0) = score (physics t0))
    by (unfold physics; fields; congruence).
  assert (Hg : gameOver (physics s0) = gameOver (physics t0))
    by (unfold physics; fields; congruence).
  assert (Hrest : velocityY (physics s0) = velocityY (physics t0) /\
                  placePipesInterval (physics s0) = placePipesInterval (physics t0) /\
                  loaded (physics s0) = loaded (physics t0) /\
                  running (physics s0) = running (physics t0) /\
                  showMenu (physics s0) = showMenu (physics t0) /\
                  checks (physics s0) = checks (physics t0)).
  { unfold physics. fields. repeat split; congruence. }
  rewrite <- Hb, <- Hp, <- Hs, <- Hg.
  destruct (pipeLoop (bird (physics s0)) (pipes (physics s0))
              (score (physics s0)) (gameOver (physics s0))) as [[ps sc] go].
  destruct Hrest as (H1 & H2 & H3 & H4 & H5 & H6).
  fields. rewrite <- Hb.
  destruct (Qgtb _ _); fields; unfold sameGame; fields;
    [repeat split; auto|].
  destruct go; fields; repeat split; auto.
Qed.

Lemma sameGame_startGame r s t :
  sameGame s t -> sameGame (startGame r s) (startGame r t).
Proof.
  intros (H1 & H2 & H3 & H4 & H5 & H6 & H7 & H8 & H9 & H10).
  unfold sameGame. repeat split; try reflexivity; [exact H7 | exact H10].
Qed.

(** X11: the sprite animation does not touch the game.  The idle loop
    changes nothing but the two animation counters, and no handler reads
    them for anything else: two states that differ at most in these
    counters are taken by every event to two states that again differ at
    most in them. *)
Theorem X11_animation_is_cosmetic (e : Event) (s t : State) :
  sameGame s t ->
  sameGame (handle e s) (handle e t) /\
  sameGame (idleLoop s) s /\
  sameGame (step (idleLoop s)) (step t).
Proof.
  intros H. split; [|split].
  - destruct e; cbn [handle].
    + now apply sameGame_step.
    + destruct (sameGame_animate (FRAME_TICK_RATE * 2) s)
        as (A1 & A2 & A3 & A4 & A5 & A6 & A7 & A8 & A9 & A10).
      destruct (sameGame_animate (FRAME_TICK_RATE * 2) t)
        as (B1 & B2 & B3 & B4 & B5 & B6 & B7 & B8 & B9 & B10).
      destruct H as (H1 & H2 & H3 & H4 & H5 & H6 & H7 & H8 & H9 & H10).
      unfold idleLoop, sameGame. repeat split; congruence.
    + pose proof (sameGame_startGame r s t H) as Hstart.
      pose proof H as Hst.
      destruct H as (H1 & H2 & H3 & H4 & H5 & H6 & H7 & H8 & H9 & H10).
      unfold flap. rewrite <- H8, <- H9, <- H7, <- H5.
      destruct (negb (running s)).
      * destruct (showMenu s && loaded s); assumption.
      * destruct (gameOver s) eqn:G; [assumption|].
        unfold sameGame; fields; repeat split; auto; congruence.
    + pose proof (sameGame_startGame r s t H) as Hstart.
      pose proof H as Hst.
      destruct H as (H1 & H2 & H3 & H4 & H5 & H6 & H7 & H8 & H9 & H10).
      unfold startButton. rewrite <- H9, <- H7.
      destruct (showMenu s); [|assumption].
      destruct (negb (loaded s)); assumption.
    + destruct H as (H1 & H2 & H3 & H4 & H5 & H6 & H7 & H8 & H9 & H10).
      rewrite <- H6.
      destruct (placePipesInterval s) eqn:G6;
        [|unfold sameGame; repeat split; auto; congruence].
      unfold placePipes. rewrite <- H5.
      destruct (gameOver s) eqn:G5; cbn [negb];
        [unfold sameGame; repeat split; auto; congruence|].
      unfold spawnPipePair, sameGame. fields. rewrite H3.
      repeat split; auto; congruence.
    + destruct H as (H1 & H2 & H3 & H4 & H5 & H6 & H7 & H8 & H9 & H10).
      unfold checkLoaded. fields. rewrite <- H7, <- H10.
      destruct (loaded s) eqn:G7; cbn [negb andb]; unfold sameGame; fields;
        [repeat split; auto; congruence|].
      destruct (3 <? S (checks s))%nat; fields; repeat split; auto;
        congruence.
  - apply sameGame_animate.
  - apply sameGame_step.
    destruct (sameGame_animate (FRAME_TICK_RATE * 2) s)
      as (A1 & A2 & A3 & A4 & A5 & A6 & A7 & A8 & A9 & A10).
    destruct H as (H1 & H2 & H3 & H4 & H5 & H6 & H7 & H8 & H9 & H10).
    unfold idleLoop, sameGame. repeat split; congruence.
Qed.

Lemma X11_witness :
  sameGame (idleLoop started) started /\
  sameGame (handle Tick (idleLoop started)) (handle Tick started).
Proof.
  assert (S0 : sameGame (idleLoop started) started)
    by (vm_compute; repeat split; reflexivity).
  exact (conj S0 (proj1 (X11_animation_is_cosmetic Tick _ _ S0))).
Defined.
